(** * Lyric synchronisation of the Python music player

    A shallow embedding of [src/music_player.py]: the caption (LRC) parser
    [MusicPlayer.parse_lrc], the elapsed-position query
    [MusicPlayer.get_play_time], the transport commands [play_pause] and
    [stop], and the periodic resolver [MusicPlayer.update_loop]; then
    [ensure_pygame] and [load] with the session they make up, and from
    [src/yt_music_player_yt_dlp.py] the time stamp, the lyric loop and
    the choice of the audio stream.

    Modelling conventions.
    - Python [str] values are strings of characters whose code points lie
      below 256; the character classes used by [str.strip] and by the
      regular expression class [\d] are written out for that range.
    - Python [int] is [Z].  [int(s)] refuses a text of more than 4300
      digits ([ValueError], the default limit of CPython since 3.11).
    - Python [float] is an IEEE 754 binary64 number, as are Rocq's
      primitive floats: [+], [-], [/] and [<=] on [float] round and compare
      as the interpreter does, and a decimal literal denotes the nearest
      double.  The conversion of an integer rounds to nearest, ties to even
      ([PyFloat.of_int]), and raises [OverflowError] for an integer that is
      too large.  Only the stream scores of the command-line player are
      kept as exact rationals.
    - Exceptions are an error result [Raise e]; calls that depend on the
      outside world (the clock, the mixer's position report, the file
      system) take the outside answer as an argument. *)

From Stdlib Require Import ZArith QArith List Ascii String Bool Lia.
From Stdlib Require Import Sorted Permutation.
From Stdlib Require Import Floats.
From Stdlib Require Uint63.
From Stdlib Require DecimalString DecimalN.
Import ListNotations.

Local Open Scope Z_scope.

(* Decimal literals such as 0.1 stand for the nearest double, as in Python. *)
#[local] Set Warnings "-inexact-float".

(** ** Exceptions *)

Inductive exn : Type :=
| OSError         (* open() or a read failed *)
| ValueError      (* int(): more digits than the conversion limit *)
| OverflowError   (* int too large to convert to float *)
| PygameError.    (* pygame.error: mixer not initialized *)

Inductive result (A : Type) : Type :=
| Ok (a : A)
| Raise (e : exn).

Arguments Ok {A} a.
Arguments Raise {A} e.

Definition bind {A B} (r : result A) (k : A -> result B) : result B :=
  match r with
  | Ok a => k a
  | Raise e => Raise e
  end.

Notation "x <- r ;; k" := (bind r (fun x => k))
  (at level 61, r at next level, right associativity).

(** ** Floats *)

Module PyFloat.

(** [float(n)] for an integer [n]: the nearest double, ties to even;
    infinity beyond the largest double (the callers raise before that). *)
Definition of_int (n : Z) : float :=
  SF2Prim (binary_normalize prec emax n 0 false).

(** Sign bit clear and not NaN: [+0], a positive number or [+inf]. *)
Definition sign_clear (s : spec_float) : Prop :=
  match s with
  | S754_zero false | S754_infinity false | S754_finite false _ _ => True
  | _ => False
  end.

Definition nonneg (x : float) : Prop := sign_clear (Prim2SF x).

End PyFloat.

(** ** Text: characters, [str.strip], line iteration *)

Module Text.

Definition chars := list ascii.

Definition LF : ascii := "010"%char.
Definition CR : ascii := "013"%char.

Definition ord (c : ascii) : N := N_of_ascii c.

(** [str.isspace] on code points below 256: TAB..CR, FS..US, space,
    NEL (0x85) and NBSP (0xA0). *)
Definition is_space (c : ascii) : bool :=
  let n := ord c in
  (((9 <=? n) && (n <=? 13)) || ((28 <=? n) && (n <=? 32))
   || (n =? 133) || (n =? 160))%N.

(** The class [\d] on code points below 256: the ten ASCII digits. *)
Definition is_digit (c : ascii) : bool :=
  let n := ord c in ((48 <=? n) && (n <=? 57))%N.

Definition digit_value (c : ascii) : Z := Z.of_N (ord c) - 48.

Fixpoint lstrip (s : chars) : chars :=
  match s with
  | [] => []
  | c :: s' => if is_space c then lstrip s' else s
  end.

Definition rstrip (s : chars) : chars := rev (lstrip (rev s)).

(** [s.strip()] *)
Definition strip (s : chars) : chars := rstrip (lstrip s).

(** [for line in f] on a file opened in text mode with universal newlines:
    a line ends at "\n", "\r" or "\r\n", the terminator is handed over as
    one "\n"; a last line without terminator is handed over as it is.
    [cur] holds the characters of the current line, newest first. *)
Fixpoint iter_lines (cur : chars) (s : chars) : list chars :=
  match s with
  | [] => match cur with [] => [] | _ :: _ => [rev cur] end
  | c :: s' =>
      if Ascii.eqb c LF then rev (LF :: cur) :: iter_lines [] s'
      else if Ascii.eqb c CR then
        match s' with
        | c' :: s'' =>
            if Ascii.eqb c' LF then rev (LF :: cur) :: iter_lines [] s''
            else rev (LF :: cur) :: iter_lines [] s'
        | [] => rev (LF :: cur) :: iter_lines [] s'
        end
      else iter_lines (c :: cur) s'
  end.

Definition lines (content : string) : list chars :=
  iter_lines [] (list_ascii_of_string content).

(** The number a run of decimal digits denotes. *)
Fixpoint int_acc (acc : Z) (ds : chars) : Z :=
  match ds with
  | [] => acc
  | d :: ds' => int_acc (acc * 10 + digit_value d) ds'
  end.

Definition value (ds : chars) : Z := int_acc 0 ds.

(** [sys.int_info.default_max_str_digits] *)
Definition max_str_digits : Z := 4300.

(** [int(digits)] for a non-empty run of decimal digits: every digit
    counts towards the limit, leading zeros included. *)
Definition int (ds : chars) : result Z :=
  if (max_str_digits <? Z.of_nat (List.length ds))%Z then Raise ValueError
  else Ok (value ds).

(** A line as the file iterator hands it over: no line feed except,
    possibly, one as the last character. *)
Definition line_shape (l : chars) : Prop :=
  exists body, ~ In LF body /\ (l = body \/ l = body ++ [LF]).

End Text.

(** ** The LRC pattern and [re.finditer] *)

Module Re.
Import Text.

(** The groups of one match of the pattern compiled in [parse_lrc]: an
    opening bracket, group 1 (digits), a colon, group 2 (digits), an
    optional dot with group 3 (digits), a closing bracket, and group 4, the
    rest of the line (dot-star). *)
Record lrc_match : Type := mk_match {
  group1 : chars;
  group2 : chars;
  group3 : option chars;
  group4 : chars
}.

(** Greedy [\d*]: the longest run of digits and what follows it. *)
Fixpoint digits (s : chars) : chars * chars :=
  match s with
  | c :: s' =>
      if is_digit c then let (ds, r) := digits s' in (c :: ds, r)
      else ([], s)
  | [] => ([], [])
  end.

(** Greedy dot-star: everything up to the next line feed. *)
Fixpoint dot_star (s : chars) : chars * chars :=
  match s with
  | c :: s' =>
      if Ascii.eqb c LF then ([], s)
      else let (t, r) := dot_star s' in (c :: t, r)
  | [] => ([], [])
  end.

(** [\d+] followed by a literal that is not a digit: the greedy run is the
    only candidate, giving digits back cannot make the literal match. *)
Definition digits1 (s : chars) : option (chars * chars) :=
  match digits s with
  | ([], _) => None
  | (ds, r) => Some (ds, r)
  end.

Definition literal (c : ascii) (s : chars) : option chars :=
  match s with
  | c' :: s' => if Ascii.eqb c' c then Some s' else None
  | [] => None
  end.

(** The optional fraction group followed by the closing bracket: first
    with the group, then, on failure, without it. *)
Definition fraction_then_close (s : chars) : option (option chars * chars) :=
  let with_group :=
    match literal "." s with
    | Some s1 =>
        match digits1 s1 with
        | Some (ds, s2) =>
            match literal "]" s2 with
            | Some s3 => Some (Some ds, s3)
            | None => None
            end
        | None => None
        end
    | None => None
    end in
  match with_group with
  | Some r => Some r
  | None =>
      match literal "]" s with
      | Some s3 => Some (None, s3)
      | None => None
      end
  end.

(** One attempt of the pattern at the head of [s]; gives the groups and the
    text after the match. *)
Definition match_here (s : chars) : option (lrc_match * chars) :=
  match literal "[" s with
  | None => None
  | Some s1 =>
      match digits1 s1 with
      | None => None
      | Some (g1, s2) =>
          match literal ":" s2 with
          | None => None
          | Some s3 =>
              match digits1 s3 with
              | None => None
              | Some (g2, s4) =>
                  match fraction_then_close s4 with
                  | None => None
                  | Some (g3, s5) =>
                      let (g4, rest) := dot_star s5 in
                      Some (mk_match g1 g2 g3 g4, rest)
                  end
              end
          end
      end
  end.

(** [pattern.finditer(s)]: the leftmost match, then the search goes on
    after it.  A match is never empty, so [fuel] = length of [s] is
    enough (lemma [finditer_fuel]). *)
Fixpoint finditer_from (fuel : nat) (s : chars) : list lrc_match :=
  match fuel with
  | O => []
  | S fuel' =>
      match s with
      | [] => []
      | _ :: s' =>
          match match_here s with
          | Some (m, rest) => m :: finditer_from fuel' rest
          | None => finditer_from fuel' s'
          end
      end
  end.

Definition finditer (s : chars) : list lrc_match :=
  finditer_from (List.length s) s.

End Re.

(** ** [list.sort(key=...)]

    Python's sort is stable; on keys that are totally ordered (floats
    other than NaN are) a stable sort has one possible result, which
    insertion from the right computes. *)

Module Sort.

Section ByKey.
Context {A : Type} (key : A -> float).

Fixpoint insert (x : A) (l : list A) : list A :=
  match l with
  | [] => [x]
  | y :: l' =>
      if (key x <=? key y)%float then x :: l else y :: insert x l'
  end.

Fixpoint sort (l : list A) : list A :=
  match l with
  | [] => []
  | x :: l' => insert x (sort l')
  end.

(** The order the sort establishes. *)
Definition key_le (a b : A) : Prop := (key a <=? key b)%float = true.

(** The elements of [l] whose key equals [q], in their order in [l]. *)
Definition with_key (q : float) (l : list A) : list A :=
  filter (fun a => (key a =? q)%float) l.

(** The keys of [l] are numbers: none is NaN. *)
Definition keys_ordered (l : list A) : Prop :=
  Forall (fun a => (key a <=? key a)%float = true) l.

End ByKey.

End Sort.

(** ** The caption parser *)

Module Lrc.
Import Text Re.

(** A timeline entry [(t, text)]: offset in seconds and caption. *)
Definition entry : Type := float * string.

Definition start_offset (e : entry) : float := fst e.
Definition caption (e : entry) : string := snd e.

(** The smallest integer that does not fit a double: conversion rounds to
    nearest, so everything from [2^1024 - 2^970] on raises. *)
Definition float_limit : Z := (2 ^ 1024 - 2 ^ 970)%Z.

(** The implicit [int] to [float] conversion of mixed arithmetic, for an
    integer that is not negative. *)
Definition float_of_int (n : Z) : result float :=
  if (n <? float_limit)%Z then Ok (PyFloat.of_int n)
  else Raise OverflowError.

(** The body of the inner loop of [parse_lrc] for one match.  Each [int]
    can raise.  In [mm*60 + ss + ms/1000.0] the integer sum is exact; the
    division converts [ms] and the last addition converts the integer sum,
    in this order, and either conversion can raise; the quotient and the
    sum are rounded. *)
Definition entry_of_match (m : lrc_match) : result entry :=
  mm <- int (group1 m) ;;
  ss <- int (group2 m) ;;
  ms <- match group3 m with Some ds => int ds | None => Ok 0%Z end ;;
  let text := string_of_list_ascii (strip (group4 m)) in
  let secs := (mm * 60 + ss)%Z in
  frac <- (f <- float_of_int ms ;; Ok (f / 1000)%float) ;;
  whole <- float_of_int secs ;;
  Ok ((whole + frac)%float, text).

(** [entries.append] for every match, in order; the first exception ends
    the loop. *)
Fixpoint append_matches (entries : list entry) (ms : list lrc_match)
  : result (list entry) :=
  match ms with
  | [] => Ok entries
  | m :: ms' =>
      e <- entry_of_match m ;;
      append_matches (entries ++ [e]) ms'
  end.

(** One iteration of [for line in f]. *)
Definition parse_line (entries : list entry) (line : chars)
  : result (list entry) :=
  append_matches entries (finditer (strip line)).

Fixpoint parse_lines (entries : list entry) (ls : list chars)
  : result (list entry) :=
  match ls with
  | [] => Ok entries
  | line :: ls' =>
      entries' <- parse_line entries line ;;
      parse_lines entries' ls'
  end.

(** The entries in file order, before the final sort. *)
Definition read_entries (content : string) : result (list entry) :=
  parse_lines [] (lines content).

(** The file system as [parse_lrc] sees it: the decoded text of a path, or
    nothing when [open] or a read fails.  Decoding itself cannot fail
    ([errors='ignore']). *)
Definition filesystem : Type := string -> option string.

Definition parse_lrc (fs : filesystem) (path : string)
  : result (list entry) :=
  match fs path with
  | None => Raise OSError
  | Some content =>
      entries <- read_entries content ;;
      Ok (Sort.sort start_offset entries)
  end.

(** A file system holding one file. *)
Definition single_file (name content : string) : filesystem :=
  fun p => if String.eqb p name then Some content else None.

(** The integer fields of a match, as [parse_lrc] reads them. *)
Definition minutes (m : lrc_match) : Z := value (group1 m).
Definition seconds (m : lrc_match) : Z := value (group2 m).
Definition fraction (m : lrc_match) : Z :=
  match group3 m with Some ds => value ds | None => 0%Z end.

(** No numeric field has more digits than [int] accepts. *)
Definition within_limit (m : lrc_match) : Prop :=
  (Z.of_nat (List.length (group1 m)) <= max_str_digits)%Z /\
  (Z.of_nat (List.length (group2 m)) <= max_str_digits)%Z /\
  forall ds, group3 m = Some ds ->
             (Z.of_nat (List.length ds) <= max_str_digits)%Z.

(** Both conversions to float stay in range. *)
Definition in_range (m : lrc_match) : Prop :=
  (fraction m < float_limit)%Z /\
  (minutes m * 60 + seconds m < float_limit)%Z.

(** The exception [e] is one that the match [m] makes [parse_lrc] raise:
    a field with too many digits for [int], or a number too large for a
    float. *)
Definition rejects (e : exn) (m : lrc_match) : Prop :=
  (e = ValueError /\ ~ within_limit m) \/
  (e = OverflowError /\ ~ in_range m).

(** The offset [parse_lrc] computes from the fields of a match. *)
Definition offset_of (m : lrc_match) : float :=
  (PyFloat.of_int (minutes m * 60 + seconds m)
   + PyFloat.of_int (fraction m) / 1000)%float.

End Lrc.

(** ** The player object *)

Module Player.
Import Lrc.

Local Open Scope float_scope.
Local Open Scope string_scope.

(** The fields of [MusicPlayer] that playback and the lyric display use.
    [btn_play] is the label of the Play button, [lyric_var] the value of
    the [StringVar] behind the lyric label. *)
Record MusicPlayer : Type := mk_player {
  playing : bool;
  paused : bool;
  audio_path : option string;
  lrc : list entry;
  start_time : float;
  pause_offset : float;
  pygame_initialized : bool;
  btn_play : string;
  lyric_var : string
}.

(** What the outside world answers during one call: [time.time()], whether
    [pygame.mixer] is initialised, what [pygame.mixer.music.get_pos()]
    reports (milliseconds, negative when no music is playing; a C integer,
    so its conversion to float never raises) and whether
    [pygame.mixer.music.play()] accepts the loaded file. *)
Record World : Type := mk_world {
  now : float;
  mixer_init : bool;
  get_pos : Z;
  play_ok : bool
}.

(** [pygame.mixer.music.get_pos()]: raises when the mixer is not
    initialised. *)
Definition music_get_pos (w : World) : result Z :=
  if mixer_init w then Ok (get_pos w) else Raise PygameError.

(** [pygame.mixer.music.stop()], [pause()] and [unpause()]. *)
Definition music_command (w : World) : result unit :=
  if mixer_init w then Ok tt else Raise PygameError.

(** [pygame.mixer.music.play()]. *)
Definition music_play (w : World) : result unit :=
  if mixer_init w && play_ok w then Ok tt else Raise PygameError.

(** The object as [__init__] leaves it. *)
Definition init : MusicPlayer :=
  {| playing := false; paused := false; audio_path := None; lrc := [];
     start_time := 0; pause_offset := 0; pygame_initialized := false;
     btn_play := "Play";
     lyric_var := "Lyrics will appear here when a .lrc file is loaded (same folder as audio or chosen)." |}.

Definition set_lyric (text : string) (s : MusicPlayer) : MusicPlayer :=
  {| playing := playing s; paused := paused s; audio_path := audio_path s;
     lrc := lrc s; start_time := start_time s;
     pause_offset := pause_offset s;
     pygame_initialized := pygame_initialized s;
     btn_play := btn_play s; lyric_var := text |}.

(** [play_pause]: start (or restart after [stop]), pause, resume.  Only
    the call of [music.play] sits in a [try].  [pause_offset] holds the
    integer [get_pos()] returned as the float that [pause_offset/1000.0]
    converts it to. *)
Definition play_pause (s : MusicPlayer) (w : World) : result MusicPlayer :=
  match audio_path s with
  | None => Ok s                      (* warning box, return *)
  | Some _ =>
      if negb (playing s) then
        match music_play w with
        | Raise _ => Ok s             (* error box, return *)
        | Ok _ =>
            Ok {| playing := true; paused := false;
                  audio_path := audio_path s; lrc := lrc s;
                  start_time := now w - pause_offset s / 1000;
                  pause_offset := pause_offset s;
                  pygame_initialized := pygame_initialized s;
                  btn_play := "Pause"; lyric_var := lyric_var s |}
        end
      else if negb (paused s) then
        _ <- music_command w ;;
        pos <- music_get_pos w ;;
        Ok {| playing := playing s; paused := true;
              audio_path := audio_path s; lrc := lrc s;
              start_time := start_time s;
              pause_offset := PyFloat.of_int pos;
              pygame_initialized := pygame_initialized s;
              btn_play := "Resume"; lyric_var := lyric_var s |}
      else
        _ <- music_command w ;;
        Ok {| playing := playing s; paused := false;
              audio_path := audio_path s; lrc := lrc s;
              start_time := now w - pause_offset s / 1000;
              pause_offset := pause_offset s;
              pygame_initialized := pygame_initialized s;
              btn_play := "Pause"; lyric_var := lyric_var s |}
  end.

(** [stop] *)
Definition stop (s : MusicPlayer) (w : World) : result MusicPlayer :=
  _ <- (if pygame_initialized s then music_command w else Ok tt) ;;
  Ok {| playing := false; paused := false;
        audio_path := audio_path s; lrc := lrc s;
        start_time := start_time s;
        pause_offset := 0;
        pygame_initialized := pygame_initialized s;
        btn_play := "Play"; lyric_var := "Playback stopped." |}.

(** [get_play_time]: seconds of playback. *)
Definition get_play_time (s : MusicPlayer) (w : World) : result float :=
  if negb (pygame_initialized s) then Ok 0
  else
    pos <- music_get_pos w ;;
    if (pos >=? 0)%Z then Ok (PyFloat.of_int pos / 1000)
    else if playing s && negb (paused s) then Ok (now w - start_time s)
    else if paused s then Ok (pause_offset s / 1000)
    else Ok 0.

(** The [for ... in self.lrc] loop of [update_loop]: [text] is the loop
    variable's last assignment, [bound] is the double [t + 0.1] and the
    test is the comparison of doubles [time_s <= t + 0.1]. *)
Fixpoint scan (bound : float) (entries : list entry) (text : string)
  : string :=
  match entries with
  | [] => text
  | (time_s, lyric) :: rest =>
      if (time_s <=? bound)%float then scan bound rest lyric
      else text                       (* break *)
  end.

(** The number of iterations of that loop which assign [text]: the
    position the loop stops at, 0 when no entry has started. *)
Fixpoint cursor (bound : float) (entries : list entry) : nat :=
  match entries with
  | [] => O
  | (time_s, _) :: rest =>
      if (time_s <=? bound)%float then S (cursor bound rest) else O
  end.

(** The entry at position [c] of the timeline, positions counted from 1;
    position 0 is in front of the first entry. *)
Definition entry_at (c : nat) (entries : list entry) : option entry :=
  match c with
  | O => None
  | S c' => nth_error entries c'
  end.

(** Truth value of a [str]. *)
Definition truthy (text : string) : bool :=
  match text with EmptyString => false | String _ _ => true end.

(** The constant [0.1] added to the reading. *)
Definition tolerance : float := 0.1.

(** One run of [update_loop]: the new object and the argument of the
    [lyric_var.set] call, if the run makes one.  The rescheduling
    [root.after(200, ...)] is the caller's loop ([run_ticks]). *)
Definition update_loop (s : MusicPlayer) (w : World)
  : result (MusicPlayer * option string) :=
  if playing s || paused s then
    t <- get_play_time s w ;;
    let text := scan (t + tolerance) (lrc s) "" in
    if truthy text then Ok (set_lyric text s, Some text)
    else Ok (s, None)
  else Ok (s, None).

(** Successive runs of [update_loop], one per world snapshot, with the
    [lyric_var.set] calls they make. *)
Fixpoint run_ticks (s : MusicPlayer) (ws : list World)
  : result (MusicPlayer * list (option string)) :=
  match ws with
  | [] => Ok (s, [])
  | w :: ws' =>
      r <- update_loop s w ;;
      r' <- run_ticks (fst r) ws' ;;
      Ok (fst r', snd r :: snd r')
  end.

(** The flag [pygame_initialized] is only set after [pygame.mixer.init()]
    succeeded, and nothing shuts the mixer down. *)
Definition mixer_ready (s : MusicPlayer) (w : World) : Prop :=
  pygame_initialized s = true -> mixer_init w = true.

(** The position the resolver stops at for the elapsed reading of [w]. *)
Definition tick_cursor (s : MusicPlayer) (w : World) : result nat :=
  t <- get_play_time s w ;;
  Ok (cursor (t + tolerance) (lrc s)).

(** What a tick that resolves to [resolved] does to the object [s]: it
    sets the display to the caption when there is one and it is not
    empty, and does nothing otherwise. *)
Definition present (s : MusicPlayer) (resolved : option entry)
  : result (MusicPlayer * option string) :=
  match resolved with
  | Some e =>
      if truthy (caption e)
      then Ok (set_lyric (caption e) s, Some (caption e))
      else Ok (s, None)
  | None => Ok (s, None)
  end.

(** The last entry of the timeline whose offset is at most [bound]: what
    the resolver is meant to find. *)
Fixpoint last_started (bound : float) (entries : list entry)
  : option entry :=
  match entries with
  | [] => None
  | e :: rest =>
      match last_started bound rest with
      | Some x => Some x
      | None => if (start_offset e <=? bound)%float then Some e else None
      end
  end.

(** The timeline invariant: offsets never decrease along the list. *)
Definition nondecreasing (entries : list entry) : Prop :=
  StronglySorted (Sort.key_le start_offset) entries.

(** No entry of [entries] has started at [bound] when its first one has
    not. *)
Definition head_not_started (bound : float) (entries : list entry) : Prop :=
  match entries with
  | [] => True
  | e :: _ => (bound <? start_offset e)%float = true
  end.

End Player.

(** ** Sample sessions *)

Module Examples.
Import Lrc Player.

Local Open Scope float_scope.
Local Open Scope string_scope.

(** The timeline [(0, "A"), (2000, "B"), (2000, "C"), (5000, "D")] (ms),
    in the seconds the program stores. *)
Definition timeline8 : list entry :=
  [(0, "A"); (2, "B"); (2, "C"); (5, "D")].

(** A running session on [entries] with [shown] on display. *)
Definition session (entries : list entry) (shown : string) : MusicPlayer :=
  {| playing := true; paused := false; audio_path := Some "song.mp3";
     lrc := entries; start_time := 0; pause_offset := 0;
     pygame_initialized := true; btn_play := "Pause";
     lyric_var := shown |}.

(** The same session after [pause]. *)
Definition paused_session (entries : list entry) (shown : string)
  : MusicPlayer :=
  {| playing := true; paused := true; audio_path := Some "song.mp3";
     lrc := entries; start_time := 0; pause_offset := 1500;
     pygame_initialized := true; btn_play := "Resume";
     lyric_var := shown |}.

(** A snapshot in which the mixer reports [ms] milliseconds. *)
Definition report (ms : Z) : World :=
  {| now := 0; mixer_init := true; get_pos := ms; play_ok := true |}.

(** The clock readings 0, 1000, 2000, 2000, 6000. *)
Definition readings8 : list World :=
  map report [0; 1000; 2000; 2000; 6000]%Z.

(** A caption file whose only marker has a fraction of 310 digits. *)
Definition oversized_fraction : string :=
  "[0:00.1" ++ string_of_list_ascii (repeat "0"%char 309) ++ "]la".

End Examples.

(** ** What a well-formed timeline looks like *)

Module Shape.
Import Text Re Lrc.

(** No white space at either end. *)
Definition trimmed (s : chars) : bool :=
  match s with
  | [] => true
  | c :: _ => negb (is_space c) && negb (is_space (last s c))
  end.

(** The numeric groups of a match hold digits only. *)
Definition digit_groups (m : lrc_match) : Prop :=
  Forall (fun c => is_digit c = true) (group1 m) /\
  Forall (fun c => is_digit c = true) (group2 m) /\
  forall ds, group3 m = Some ds -> Forall (fun c => is_digit c = true) ds.

(** An entry as the parser builds it: offset not negative, caption
    stripped. *)
Definition entry_ok (e : entry) : Prop :=
  (0 <=? start_offset e)%float = true /\
  trimmed (list_ascii_of_string (caption e)) = true.

(** A caption line made of one marker and its text:
    [[mm:ss]text] or [[mm:ss.frac]text]. *)
Definition marker_line (mm ss : chars) (frac : option chars) (text : chars)
  : chars :=
  "["%char :: mm ++ ":"%char :: ss ++
  match frac with
  | Some ds => "."%char :: ds ++ "]"%char :: text
  | None => "]"%char :: text
  end.

End Shape.

(** ** [os.path.splitext] *)

Module Path.
Import Text.

(** [p.rfind(c)] for the characters of a class: the index of the last
    character of [s] in the class, [last] when there is none; [i] is the
    index of the head of [s]. *)
Fixpoint rfind_from (P : ascii -> bool) (s : chars) (i last : Z) : Z :=
  match s with
  | [] => last
  | c :: s' => rfind_from P s' (i + 1) (if P c then i else last)
  end.

Definition rfind (P : ascii -> bool) (s : chars) : Z :=
  rfind_from P s 0 (-1).

Definition is_dot (c : ascii) : bool := Ascii.eqb c ".".

(** The slice [p[lo:hi]] for indices that are not negative. *)
Definition slice (p : chars) (lo hi : Z) : chars :=
  firstn (Z.to_nat (hi - lo)) (skipn (Z.to_nat lo) p).

(** [genericpath._splitext]: [is_sep] holds of the separator and, where
    the platform has one, of the alternative separator.  The extension
    starts at the last dot behind the last separator, unless the file
    name has only dots in front of it. *)
Definition splitext (is_sep : ascii -> bool) (p : chars) : chars * chars :=
  let sepIndex := rfind is_sep p in
  let dotIndex := rfind is_dot p in
  if (dotIndex >? sepIndex)%Z
     && existsb (fun c => negb (is_dot c)) (slice p (sepIndex + 1) dotIndex)
  then (firstn (Z.to_nat dotIndex) p, skipn (Z.to_nat dotIndex) p)
  else (p, []).

(** [base + ".lrc"] for [base, _ = os.path.splitext(file)]. *)
Definition lrc_path_of (is_sep : ascii -> bool) (file : string) : string :=
  (string_of_list_ascii (fst (splitext is_sep (list_ascii_of_string file)))
   ++ ".lrc")%string.

(** The separators of [posixpath] and of [ntpath]. *)
Definition posix_sep (c : ascii) : bool := Ascii.eqb c "/".
Definition nt_sep (c : ascii) : bool :=
  Ascii.eqb c "\" || Ascii.eqb c "/".

End Path.

(** ** Loading a file, and the session as a whole *)

Module Session.
Import Text Lrc Player Path.

Local Open Scope float_scope.
Local Open Scope string_scope.

(** What the outside world answers during one call of [load]. *)
Record LoadEnv : Type := mk_load_env {
  pygame_present : bool;       (* [import pygame] had worked *)
  mixer_init_ok : bool;        (* [pygame.mixer.init()] works *)
  chosen_audio : string;       (* the file dialog's answer, empty on cancel *)
  music_load_ok : bool;        (* [pygame.mixer.music.load] takes the file *)
  is_sep : ascii -> bool;      (* path separators of the platform *)
  path_exists : string -> bool;  (* [os.path.exists] *)
  wants_lyrics : bool;         (* the answer to the yes/no box *)
  chosen_lrc : string;         (* the lyric dialog's answer *)
  files : filesystem
}.

(** The object together with the state of [pygame.mixer]. *)
Record App : Type := mk_app {
  player : MusicPlayer;
  mixer_up : bool
}.

Definition set_initialized (s : MusicPlayer) : MusicPlayer :=
  {| playing := playing s; paused := paused s; audio_path := audio_path s;
     lrc := lrc s; start_time := start_time s;
     pause_offset := pause_offset s;
     pygame_initialized := true;
     btn_play := btn_play s; lyric_var := lyric_var s |}.

Definition set_audio_path (file : string) (s : MusicPlayer) : MusicPlayer :=
  {| playing := playing s; paused := paused s; audio_path := Some file;
     lrc := lrc s; start_time := start_time s;
     pause_offset := pause_offset s;
     pygame_initialized := pygame_initialized s;
     btn_play := btn_play s; lyric_var := lyric_var s |}.

Definition set_lrc (entries : list entry) (s : MusicPlayer) : MusicPlayer :=
  {| playing := playing s; paused := paused s; audio_path := audio_path s;
     lrc := entries; start_time := start_time s;
     pause_offset := pause_offset s;
     pygame_initialized := pygame_initialized s;
     btn_play := btn_play s; lyric_var := lyric_var s |}.

(** The last four assignments of [load]. *)
Definition reset_transport (s : MusicPlayer) : MusicPlayer :=
  {| playing := false; paused := false; audio_path := audio_path s;
     lrc := lrc s; start_time := start_time s;
     pause_offset := 0;
     pygame_initialized := pygame_initialized s;
     btn_play := "Play"; lyric_var := lyric_var s |}.

(** [ensure_pygame]: the new state and the returned truth value. *)
Definition ensure_pygame (a : App) (e : LoadEnv) : App * bool :=
  if pygame_initialized (player a) then (a, true)
  else if negb (pygame_present e) then (a, false)
  else if mixer_init_ok e
       then (mk_app (set_initialized (player a)) true, true)
       else (a, false).

(** [self.lrc = self.parse_lrc(path)] followed by the rest of [load]; an
    exception of the parser leaves [load] at once, with the object as it
    is at that point. *)
Definition load_lyrics (a : App) (e : LoadEnv) (path : string)
  : App * option exn :=
  match parse_lrc (files e) path with
  | Ok entries =>
      (mk_app (reset_transport (set_lrc entries (player a))) (mixer_up a),
       None)
  | Raise x => (a, Some x)
  end.

(** [load]: the state it leaves and the exception it ends with, if any. *)
Definition load (a : App) (e : LoadEnv) : App * option exn :=
  let (a1, ok) := ensure_pygame a e in
  if negb ok then (a1, None)
  else if negb (truthy (chosen_audio e)) then (a1, None)
  else
    let file := chosen_audio e in
    let a2 := mk_app (set_audio_path file (player a1)) (mixer_up a1) in
    if negb (mixer_up a2 && music_load_ok e) then (a2, None)
    else
      let lrc_path := lrc_path_of (is_sep e) file in
      if path_exists e lrc_path then load_lyrics a2 e lrc_path
      else if wants_lyrics e && truthy (chosen_lrc e)
           then load_lyrics a2 e (chosen_lrc e)
           else (mk_app (reset_transport (player a2)) (mixer_up a2), None).

(** The user's actions and the timer, with what the world answers. *)
Inductive command : Type :=
| Load (e : LoadEnv)
| PlayPause (w : World)
| Stop (w : World)
| Tick (w : World).

(** The snapshot [w] as seen while the mixer is in state [up]. *)
Definition at_mixer (up : bool) (w : World) : World :=
  {| now := now w; mixer_init := up; get_pos := get_pos w;
     play_ok := play_ok w |}.

(** An exception of a transport command or of a tick is raised before
    the first assignment: the object stays as it was. *)
Definition keep (a : App) (r : result MusicPlayer) : App * option exn :=
  match r with
  | Ok s => (mk_app s (mixer_up a), None)
  | Raise x => (a, Some x)
  end.

Definition step (a : App) (c : command) : App * option exn :=
  match c with
  | Load e => load a e
  | PlayPause w =>
      keep a (play_pause (player a) (at_mixer (mixer_up a) w))
  | Stop w => keep a (stop (player a) (at_mixer (mixer_up a) w))
  | Tick w =>
      keep a (r <- update_loop (player a) (at_mixer (mixer_up a) w) ;;
              Ok (fst r))
  end.

Fixpoint run (a : App) (cs : list command) : App :=
  match cs with
  | [] => a
  | c :: cs' => run (fst (step a c)) cs'
  end.

(** The program after [MusicPlayer(root)]: the mixer is not yet up. *)
Definition start : App := mk_app init false.

(** The label of the Play button that belongs to the two flags. *)
Definition button_for (s : MusicPlayer) : string :=
  if playing s then (if paused s then "Resume" else "Pause") else "Play".

(** What holds of the object throughout a session. *)
Record consistent (a : App) : Prop := mk_consistent {
  c_mixer : pygame_initialized (player a) = true -> mixer_up a = true;
  c_loaded : audio_path (player a) <> None ->
             pygame_initialized (player a) = true;
  c_playing : playing (player a) = true -> audio_path (player a) <> None;
  c_paused : paused (player a) = true -> playing (player a) = true;
  c_button : btn_play (player a) = button_for (player a);
  c_sorted : nondecreasing (lrc (player a));
  c_entries : Forall Shape.entry_ok (lrc (player a))
}.

End Session.

(** ** The command-line player: time stamps, lyric loop, stream choice

    From [src/yt_music_player_yt_dlp.py].  The construction of
    [LyricsDisplayer.entries], which truncates a float product, is left
    out; the loop is modelled on the entries as they are stored.  The
    positions are the integers a media player reports, far below the
    size at which formatting an integer is refused; bit rates and stream
    scores are kept as exact rationals. *)

Module YouTube.
Import Text Player.

Local Open Scope string_scope.

(** [str(n)] for an integer that is not negative. *)
Definition decimal (n : Z) : string :=
  DecimalString.NilZero.string_of_uint (N.to_uint (Z.to_N n)).

(** The format [{n:02d}] for an integer that is not negative: at least
    two digits, padded with a zero. *)
Definition two_digits (n : Z) : string :=
  let d := decimal n in
  if (String.length d <? 2)%nat then "0" ++ d else d.

(** [format_time_ms] *)
Definition format_time_ms (ms : Z) : string :=
  let s := Z.max 0 (ms / 1000) in
  let m := (s / 60)%Z in
  let s := (s mod 60)%Z in
  two_digits m ++ ":" ++ two_digits s.

(** One pass of the loop in [LyricsDisplayer.run]: the flag and the
    player's time as that pass reads them. *)
Record Poll : Type := mk_poll {
  stop_flag : bool;
  get_time : Z
}.

(** A printed lyric line: the time stamp and the text of
    [f"{timestamp} - {text}"]. *)
Definition line : Type := (string * string)%type.

(** The loop [while not self.stop_flag and idx < total] of
    [LyricsDisplayer.run], one [Poll] per pass: the index reached and the
    lines printed.  A pass that prints does not sleep; the others do. *)
Fixpoint lyric_loop (entries : list (Z * string)) (idx : nat)
  (polls : list Poll) : nat * list line :=
  match polls with
  | [] => (idx, [])
  | p :: polls' =>
      if stop_flag p || negb (idx <? List.length entries)%nat
      then (idx, [])
      else if (get_time p <? 0)%Z then lyric_loop entries idx polls'
      else
        match nth_error entries idx with
        | Some (start_ms, text) =>
            if (get_time p + 250 >=? start_ms)%Z then
              let (i, out) := lyric_loop entries (S idx) polls' in
              (i, (format_time_ms start_ms, text) :: out)
            else lyric_loop entries idx polls'
        | None => (idx, [])
        end
  end.

Definition print_line (e : Z * string) : line :=
  (format_time_ms (fst e), snd e).



(** Truth value of an optional string: [None] and the empty string are
    false. *)
Definition present (u : option string) : bool :=
  match u with Some x => truthy x | None => false end.






End YouTube.

(** * Properties *)

(** ** The pattern: what a match consumes *)

Module ReFacts.
Import Text Re.

Lemma literal_inv (c : ascii) (s r : chars) :
  literal c s = Some r -> s = c :: r.
Proof.
  destruct s as [|c' s']; simpl; [discriminate|].
  destruct (Ascii.eqb c' c) eqn:E; [|discriminate].
  apply Ascii.eqb_eq in E. intros H. injection H as <-. now subst.
Qed.

Lemma digits_app (s : chars) :
  s = fst (digits s) ++ snd (digits s).
Proof.
  induction s as [|c s IH]; simpl; [reflexivity|].
  destruct (is_digit c); [|reflexivity].
  destruct (digits s) as [ds r]. simpl in *. now f_equal.
Qed.

Lemma digits1_inv (s ds r : chars) :
  digits1 s = Some (ds, r) -> s = ds ++ r /\ ds <> [].
Proof.
  unfold digits1. pose proof (digits_app s) as H.
  destruct (digits s) as [[|d ds'] r']; [discriminate|].
  intros E. injection E as <- <-. split; [exact H|discriminate].
Qed.

Lemma dot_star_app (s : chars) :
  s = fst (dot_star s) ++ snd (dot_star s).
Proof.
  induction s as [|c s IH]; simpl; [reflexivity|].
  destruct (Ascii.eqb c LF); [reflexivity|].
  destruct (dot_star s) as [t r]. simpl in *. now f_equal.
Qed.

(** Without a line feed, dot-star runs to the end. *)
Lemma dot_star_no_LF (s : chars) :
  ~ In LF s -> dot_star s = (s, []).
Proof.
  induction s as [|c s IH]; simpl; [reflexivity|]. intros H.
  destruct (Ascii.eqb c LF) eqn:E.
  - apply Ascii.eqb_eq in E. exfalso. apply H. now left.
  - rewrite IH; [reflexivity|]. intros I. apply H. now right.
Qed.

Lemma fraction_then_close_inv (s r : chars) (g : option chars) :
  fraction_then_close s = Some (g, r) -> exists p, s = p ++ r /\ p <> [].
Proof.
  unfold fraction_then_close.
  destruct (literal "." s) as [s1|] eqn:E1.
  - apply literal_inv in E1. subst s.
    destruct (digits1 s1) as [[ds s2]|] eqn:E2.
    + apply digits1_inv in E2. destruct E2 as [-> _].
      destruct (literal "]" s2) as [s3|] eqn:E3.
      * apply literal_inv in E3. subst s2. intros H. injection H as <- <-.
        exists ("."%char :: ds ++ ["]"%char]). split; [|discriminate].
        simpl. now rewrite <- app_assoc.
      * simpl. discriminate.
    + simpl. discriminate.
  - destruct (literal "]" s) as [s3|] eqn:E3; [|discriminate].
    apply literal_inv in E3. subst s. intros H. injection H as <- <-.
    exists ["]"%char]. split; [reflexivity|discriminate].
Qed.

(** A match starts with the opening bracket and leaves a proper suffix;
    on text without line feed it leaves nothing. *)
Lemma match_here_inv (s rest : chars) (m : lrc_match) :
  match_here s = Some (m, rest) ->
  (exists p, s = "["%char :: p ++ rest) /\ (~ In LF s -> rest = []).
Proof.
  unfold match_here.
  destruct (literal "[" s) as [s1|] eqn:E1; [|discriminate].
  apply literal_inv in E1. subst s.
  destruct (digits1 s1) as [[g1 s2]|] eqn:E2; [|discriminate].
  apply digits1_inv in E2. destruct E2 as [-> _].
  destruct (literal ":" s2) as [s3|] eqn:E3; [|discriminate].
  apply literal_inv in E3. subst s2.
  destruct (digits1 s3) as [[g2 s4]|] eqn:E4; [|discriminate].
  apply digits1_inv in E4. destruct E4 as [-> _].
  destruct (fraction_then_close s4) as [[g3 s5]|] eqn:E5; [|discriminate].
  apply fraction_then_close_inv in E5. destruct E5 as (p & -> & _).
  pose proof (dot_star_app s5) as A. pose proof (dot_star_no_LF s5) as B.
  destruct (dot_star s5) as [g4 r]. simpl in A.
  intros H. injection H as _ <-. split.
  - exists (g1 ++ ":"%char :: g2 ++ p ++ g4). rewrite A.
    now rewrite <- !app_assoc, <- app_comm_cons, <- !app_assoc.
  - intros N. assert (N5 : ~ In LF s5).
    { intros I. apply N. right. rewrite in_app_iff. right. right.
      rewrite in_app_iff. right. rewrite in_app_iff. now right. }
    specialize (B N5). now injection B.
Qed.

Lemma match_here_shorter (s rest : chars) (m : lrc_match) :
  match_here s = Some (m, rest) -> (List.length rest < List.length s)%nat.
Proof.
  intros H. apply match_here_inv in H. destruct H as [(p & ->) _].
  simpl. rewrite length_app. lia.
Qed.

(** The fuel of [finditer] is enough: any two amounts that cover the
    length give the same matches. *)
Lemma finditer_from_stable (n m : nat) (s : chars) :
  (List.length s <= n)%nat -> (List.length s <= m)%nat ->
  finditer_from n s = finditer_from m s.
Proof.
  revert m s. induction n as [|n IH]; intros m s Ln Lm.
  - destruct s; [|simpl in Ln; lia]. now destruct m.
  - destruct s as [|c s']; [now destruct m|].
    destruct m as [|m]; [simpl in Lm; lia|].
    simpl in Ln, Lm. cbn [finditer_from].
    destruct (match_here (c :: s')) as [[x rest]|] eqn:E.
    + apply match_here_shorter in E. simpl in E.
      f_equal. apply IH; lia.
    + apply IH; lia.
Qed.

Lemma finditer_fuel (n : nat) (s : chars) :
  (List.length s <= n)%nat -> finditer_from n s = finditer s.
Proof.
  intros L. unfold finditer. now apply finditer_from_stable.
Qed.

(** On one line (no line feed inside) the first match takes the rest of
    the line, so the iterator yields at most one match. *)
Lemma finditer_from_at_most_one (n : nat) (s : chars) :
  ~ In LF s -> (List.length (finditer_from n s) <= 1)%nat.
Proof.
  revert s. induction n as [|n IH]; intros s N; [simpl; lia|].
  destruct s as [|c s']; [simpl; lia|].
  cbn [finditer_from].
  destruct (match_here (c :: s')) as [[m rest]|] eqn:E.
  - apply match_here_inv in E. destruct E as [_ E]. rewrite (E N).
    destruct n; simpl; lia.
  - apply IH. intros I. apply N. now right.
Qed.

Lemma finditer_at_most_one (s : chars) :
  ~ In LF s -> (List.length (finditer s) <= 1)%nat.
Proof. apply finditer_from_at_most_one. Qed.

End ReFacts.

(** ** Lines and [strip] *)

Module TextFacts.
Import Text.

Lemma In_lstrip (c : ascii) (s : chars) : In c (lstrip s) -> In c s.
Proof.
  induction s as [|d s IH]; simpl; [tauto|].
  destruct (is_space d); [|tauto]. intros H. right. now apply IH.
Qed.

Lemma In_rstrip (c : ascii) (s : chars) : In c (rstrip s) -> In c s.
Proof.
  unfold rstrip. rewrite <- in_rev. intros H. apply In_lstrip in H.
  now rewrite <- in_rev in H.
Qed.

Lemma In_strip (c : ascii) (s : chars) : In c (strip s) -> In c s.
Proof. intros H. apply In_lstrip. now apply In_rstrip. Qed.

Lemma lstrip_terminated (body : chars) :
  lstrip (body ++ [LF]) = [] \/
  exists body', lstrip (body ++ [LF]) = body' ++ [LF] /\ incl body' body.
Proof.
  induction body as [|c b IH]; simpl.
  - now left.
  - destruct (is_space c).
    + destruct IH as [IH|(b' & E & I)]; [now left|].
      right. exists b'. split; [exact E|]. now apply incl_tl.
    + right. exists (c :: b). split; [reflexivity|apply incl_refl].
Qed.

(** After [strip] a line holds no line feed. *)
Lemma strip_line_no_LF (l : chars) : line_shape l -> ~ In LF (strip l).
Proof.
  intros (body & N & [->| ->]) H.
  - apply N. now apply In_strip.
  - unfold strip in H.
    destruct (lstrip_terminated body) as [E|(b' & E & I)]; rewrite E in H.
    + exact H.
    + unfold rstrip in H. rewrite rev_app_distr in H. simpl in H.
      rewrite <- in_rev in H. apply In_lstrip in H.
      rewrite <- in_rev in H. apply N. now apply I.
Qed.

Lemma iter_lines_shape (n : nat) (s cur : chars) :
  (List.length s <= n)%nat -> ~ In LF cur ->
  Forall line_shape (iter_lines cur s).
Proof.
  revert s cur. induction n as [|n IH]; intros s cur L N.
  - destruct s; [|simpl in L; lia]. simpl.
    destruct cur; constructor; [|constructor].
    exists (rev (a :: cur)). split; [now rewrite <- in_rev|now left].
  - assert (T : line_shape (rev (LF :: cur))).
    { exists (rev cur). split; [now rewrite <- in_rev|now right]. }
    destruct s as [|c s'].
    + simpl. destruct cur; constructor; [|constructor].
      exists (rev (a :: cur)). split; [now rewrite <- in_rev|now left].
    + simpl in L. cbn [iter_lines].
      destruct (Ascii.eqb c LF) eqn:E1.
      * constructor; [exact T|]. apply IH; [lia|tauto].
      * destruct (Ascii.eqb c CR) eqn:E2.
        -- destruct s' as [|c' s''].
           ++ constructor; [exact T|]. apply IH; [simpl; lia|tauto].
           ++ simpl in L. destruct (Ascii.eqb c' LF).
              ** constructor; [exact T|]. apply IH; [lia|tauto].
              ** constructor; [exact T|]. apply IH; [simpl; lia|tauto].
        -- apply IH; [lia|]. intros [->|I]; [|now apply N].
           now rewrite Ascii.eqb_refl in E1.
Qed.

Lemma lines_shape (content : string) : Forall line_shape (lines content).
Proof.
  unfold lines. apply (iter_lines_shape _ _ [] (le_n _)). intros [].
Qed.

End TextFacts.

(** ** Doubles: order, sign, the conversion of integers

    The primitive operations are specified by the functions of
    [SpecFloat] on sign, mantissa and exponent; the facts below are read
    off those. *)

Module FloatFacts.
Import PyFloat.

Local Open Scope float_scope.

(** *** Rounding keeps the sign *)

Lemma shr_1_nonneg (mrs : shr_record) :
  (0 <= shr_m mrs)%Z -> (0 <= shr_m (shr_1 mrs))%Z.
Proof.
  destruct mrs as [m r s]. cbn [shr_m]. intros H.
  destruct m as [|[p|p|]|p]; cbn; lia.
Qed.

Lemma iter_pos_inv {A : Type} (I : A -> Prop) (f : A -> A) :
  (forall x, I x -> I (f x)) -> forall p x, I x -> I (iter_pos f p x).
Proof.
  intros Hf. induction p as [p IH|p IH|]; intros x Hx; cbn; auto.
Qed.

Lemma shr_nonneg (mrs : shr_record) (e n : Z) :
  (0 <= shr_m mrs)%Z -> (0 <= shr_m (fst (shr mrs e n)))%Z.
Proof.
  intros H. unfold shr. destruct n as [|p|p]; cbn [fst]; try exact H.
  apply (iter_pos_inv (fun x => (0 <= shr_m x)%Z));
    [apply shr_1_nonneg|exact H].
Qed.

Lemma shr_fexp_nonneg (m e : Z) (l : location) :
  (0 <= m)%Z -> (0 <= shr_m (fst (shr_fexp prec emax m e l)))%Z.
Proof.
  intros H. unfold shr_fexp. apply shr_nonneg.
  destruct l as [|[]]; exact H.
Qed.

Lemma round_nearest_even_nonneg (m : Z) (l : location) :
  (0 <= m)%Z -> (0 <= round_nearest_even m l)%Z.
Proof.
  intros H. destruct l as [|[]]; cbn; try lia.
  destruct (Z.even m); lia.
Qed.

Lemma binary_round_aux_clear (mx ex : Z) (lx : location) :
  (0 <= mx)%Z -> sign_clear (binary_round_aux prec emax false mx ex lx).
Proof.
  intros H. unfold binary_round_aux.
  pose proof (shr_fexp_nonneg mx ex lx H) as H1.
  destruct (shr_fexp prec emax mx ex lx) as [mrs' e']. cbn [fst] in H1.
  pose proof (shr_fexp_nonneg _ e' loc_Exact
                (round_nearest_even_nonneg _ (loc_of_shr_record mrs') H1))
    as H2.
  destruct (shr_fexp prec emax _ e' loc_Exact) as [mrs'' e''].
  cbn [fst] in H2.
  destruct (shr_m mrs'') as [|m|m]; [exact I| |lia].
  destruct (e'' <=? emax - prec)%Z; exact I.
Qed.

Lemma binary_round_clear (mx : positive) (ex : Z) :
  sign_clear (binary_round prec emax false mx ex).
Proof.
  unfold binary_round. destruct (shl_align _ _ _) as [mz ez].
  apply binary_round_aux_clear. lia.
Qed.

Lemma binary_normalize_clear (m e : Z) :
  (0 <= m)%Z -> sign_clear (binary_normalize prec emax m e false).
Proof.
  intros H. destruct m as [|p|p]; cbn;
    [exact I|apply binary_round_clear|lia].
Qed.

Lemma SFadd_clear (x y : spec_float) :
  sign_clear x -> sign_clear y -> sign_clear (SF64add x y).
Proof.
  destruct x as [[]|[]| |[] mx ex], y as [[]|[]| |[] my ey];
    cbn; try tauto.
  intros _ _. apply binary_round_clear.
Qed.

Lemma SFdiv_clear (x : spec_float) (my : positive) (ey : Z) :
  sign_clear x -> sign_clear (SF64div x (S754_finite false my ey)).
Proof.
  destruct x as [[]|[]| |[] mx ex]; cbn; try tauto.
  intros _. unfold SFdiv_core_binary.
  set (m' := match _ with Z0 => _ | Zpos _ => _ | Zneg _ => _ end).
  assert (M : (0 <= m')%Z).
  { unfold m'. destruct (_ - _ - _)%Z; try lia. apply Z.shiftl_nonneg. lia. }
  pose proof (Z.div_pos m' (Z.pos my) M ltac:(lia)) as D.
  unfold Z.div in D. destruct (Z.div_eucl m' (Z.pos my)) as [q r].
  apply binary_round_aux_clear. exact D.
Qed.

Lemma SFldexp_clear (x : spec_float) (e : Z) :
  sign_clear x -> sign_clear (SFldexp prec emax x e).
Proof.
  destruct x as [[]|[]| |[] mx ex]; cbn; try tauto.
  intros _. apply binary_round_clear.
Qed.

Lemma sign_clear_leb (x : spec_float) :
  sign_clear x -> SFleb (S754_zero false) x = true.
Proof. destruct x as [[]|[]| |[] mx ex]; cbn; tauto. Qed.

(** *** The order of the specification *)

Lemma SFcompare_antisym (x y : spec_float) :
  SFcompare y x = option_map CompOpp (SFcompare x y).
Proof.
  destruct x as [[]|[]| |[] mx ex], y as [[]|[]| |[] my ey]; cbn;
    try reflexivity;
    rewrite (Z.compare_antisym ex ey);
    destruct (ex ?= ey)%Z; cbn; try reflexivity;
    rewrite !Pos.compare_cont_spec; cbn;
    rewrite (Pos.compare_antisym mx my);
    destruct (mx ?= my)%positive; reflexivity.
Qed.

Lemma SFleb_total (x y : spec_float) :
  SFleb x x = true -> SFleb y y = true -> SFleb x y = false ->
  SFleb y x = true.
Proof.
  unfold SFleb. rewrite (SFcompare_antisym x y).
  destruct x as [[]|[]| |[] mx ex], y as [[]|[]| |[] my ey]; cbn;
    try congruence;
    destruct (ex ?= ey)%Z; cbn; try congruence;
    destruct (Pos.compare_cont Eq mx my); cbn; congruence.
Qed.

Lemma SFleb_trans (x y z : spec_float) :
  SFleb x y = true -> SFleb y z = true -> SFleb x z = true.
Proof.
  unfold SFleb.
  destruct x as [[]|[]| |[] mx ex], y as [[]|[]| |[] my ey],
           z as [[]|[]| |[] mz ez]; cbn; try congruence;
  rewrite ?Pos.compare_cont_spec; cbn;
  destruct (Z.compare_spec ex ey), (Z.compare_spec ey ez),
           (Z.compare_spec ex ez); try congruence; try lia;
  subst;
  destruct (Pos.compare_spec mx my), (Pos.compare_spec my mz),
           (Pos.compare_spec mx mz); cbn; try congruence; try lia.
Qed.

Lemma SFleb_refl_r (x y : spec_float) : SFleb x y = true -> SFleb y y = true.
Proof.
  unfold SFleb.
  destruct x as [[]|[]| |[] mx ex], y as [[]|[]| |[] my ey];
    cbn; try congruence; intros _;
    rewrite Z.compare_refl, Pos.compare_cont_refl; reflexivity.
Qed.

Lemma SFeqb_leb (x y : spec_float) : SFeqb x y = true -> SFleb x y = true.
Proof.
  unfold SFeqb, SFleb. destruct (SFcompare x y) as [[]|]; congruence.
Qed.

Lemma SFeqb_sym (x y : spec_float) : SFeqb x y = SFeqb y x.
Proof.
  unfold SFeqb. rewrite (SFcompare_antisym y x).
  destruct (SFcompare y x) as [[]|]; reflexivity.
Qed.

Lemma SFltb_leb (x y : spec_float) : SFltb x y = true -> SFleb y x = false.
Proof.
  unfold SFltb, SFleb. rewrite (SFcompare_antisym x y).
  destruct (SFcompare x y) as [[]|]; cbn; congruence.
Qed.

(** *** The same on doubles *)

Lemma leb_trans (x y z : float) :
  (x <=? y) = true -> (y <=? z) = true -> (x <=? z) = true.
Proof. rewrite !leb_spec. apply SFleb_trans. Qed.

(** Two doubles that are not NaN are comparable. *)
Lemma leb_total (x y : float) :
  (x <=? x) = true -> (y <=? y) = true -> (x <=? y) = false ->
  (y <=? x) = true.
Proof. rewrite !leb_spec. apply SFleb_total. Qed.

Lemma leb_refl_r (x y : float) : (x <=? y) = true -> (y <=? y) = true.
Proof. rewrite !leb_spec. apply SFleb_refl_r. Qed.

Lemma eqb_leb (x y : float) : (x =? y) = true -> (x <=? y) = true.
Proof. rewrite eqb_spec, leb_spec. apply SFeqb_leb. Qed.

Lemma eqb_sym (x y : float) : (x =? y) = (y =? x).
Proof. rewrite !eqb_spec. apply SFeqb_sym. Qed.

Lemma ltb_leb (x y : float) : (x <? y) = true -> (y <=? x) = false.
Proof. rewrite ltb_spec, leb_spec. apply SFltb_leb. Qed.

Lemma nonneg_leb (x : float) : nonneg x -> (0 <=? x) = true.
Proof. intros H. rewrite leb_spec. now apply sign_clear_leb. Qed.

(** The conversion of a natural number gives no negative zero, no
    negative number and no NaN. *)
Lemma of_int_nonneg (n : Z) : (0 <= n)%Z -> nonneg (of_int n).
Proof.
  intros H. unfold nonneg, of_int.
  pose proof (binary_normalize_clear n 0 H) as P.
  destruct (binary_normalize prec emax n 0 false) as [[]|[]| |[] m e];
    try contradiction; cbn [SF2Prim].
  - exact I.
  - exact I.
  - rewrite Z_ldexp_spec, of_uint63_spec.
    apply SFldexp_clear, binary_normalize_clear, Uint63.to_Z_bounded.
Qed.

Lemma add_nonneg (x y : float) : nonneg x -> nonneg y -> nonneg (x + y).
Proof. unfold nonneg. rewrite add_spec. apply SFadd_clear. Qed.

Lemma div_1000_nonneg (x : float) : nonneg x -> nonneg (x / 1000).
Proof. unfold nonneg. rewrite div_spec. apply SFdiv_clear. Qed.

Lemma sub_0_r (x : float) : x - 0 = x.
Proof.
  apply Prim2SF_inj. rewrite sub_spec.
  change (Prim2SF 0) with (S754_zero false).
  now destruct (Prim2SF x) as [[]|[]| |[] m e].
Qed.

Lemma add_0_r (x : float) : nonneg x -> x + 0 = x.
Proof.
  unfold nonneg. intros H. apply Prim2SF_inj. rewrite add_spec.
  change (Prim2SF 0) with (S754_zero false).
  now destruct (Prim2SF x) as [[]|[]| |[] m e].
Qed.

Lemma is_finite_spec (x : float) :
  is_finite x = true ->
  match Prim2SF x with
  | S754_zero _ | S754_finite _ _ _ => True
  | _ => False
  end.
Proof.
  unfold is_finite, is_nan, is_infinity.
  rewrite !eqb_spec, abs_spec.
  change (Prim2SF infinity) with (S754_infinity false).
  destruct (Prim2SF x) as [[]|[]| |[] m e]; cbn; try discriminate; auto.
Qed.

(** A finite double minus itself is [+0]. *)
Lemma sub_diag (x : float) : is_finite x = true -> x - x = 0.
Proof.
  intros H. apply is_finite_spec in H. apply Prim2SF_inj. rewrite sub_spec.
  change (Prim2SF 0) with (S754_zero false).
  destruct (Prim2SF x) as [[]|[]| |s m e]; try contradiction;
    try reflexivity.
  unfold SF64sub, SFsub. rewrite Z.min_id. unfold shl_align.
  rewrite (Z.sub_diag e). cbn [fst]. now rewrite Z.sub_diag.
Qed.

End FloatFacts.

(** ** The sort: ordered, a rearrangement, stable *)

Module SortFacts.
Import Sort FloatFacts.

Section ByKey.
Context {A : Type} (key : A -> float).

Local Abbreviation key_le := (Sort.key_le key).
Local Abbreviation with_key := (Sort.with_key key).
Local Abbreviation keys_ordered := (Sort.keys_ordered key).

Lemma key_le_trans : Relations_1.Transitive key_le.
Proof. intros a b c. unfold key_le. apply leb_trans. Qed.

Lemma insert_perm (x : A) (l : list A) :
  Permutation (x :: l) (insert key x l).
Proof.
  induction l as [|y l IH]; simpl; [reflexivity|].
  destruct (key x <=? key y)%float; [reflexivity|].
  rewrite perm_swap. now constructor.
Qed.

Lemma sort_perm (l : list A) : Permutation l (sort key l).
Proof.
  induction l as [|x l IH]; simpl; [constructor|].
  rewrite <- insert_perm. now constructor.
Qed.

Lemma insert_hd (x y : A) (l : list A) :
  key_le y x -> HdRel key_le y l -> HdRel key_le y (insert key x l).
Proof.
  intros Lyx H. destruct l as [|z l]; simpl; [now constructor|].
  destruct (key x <=? key z)%float; constructor; [exact Lyx|].
  now inversion H.
Qed.

Lemma insert_sorted (x : A) (l : list A) :
  (key x <=? key x)%float = true -> keys_ordered l ->
  Sorted key_le l -> Sorted key_le (insert key x l).
Proof.
  intros Cx Cl S. induction S as [|y l S IH H]; simpl;
    [repeat constructor|].
  inversion Cl as [|? ? Cy Cl']; subst.
  destruct (key x <=? key y)%float eqn:E.
  - constructor; [now constructor|]. constructor. exact E.
  - constructor; [now apply IH|].
    apply insert_hd; [|exact H]. now apply leb_total.
Qed.

Lemma sort_sorted (l : list A) :
  keys_ordered l -> StronglySorted key_le (sort key l).
Proof.
  intros C. apply Sorted_StronglySorted; [exact key_le_trans|].
  induction C as [|x l Cx C IH]; simpl; [constructor|].
  apply insert_sorted; [exact Cx| |exact IH].
  exact (Permutation_Forall (sort_perm l) C).
Qed.

(** Insertion puts [x] in front of the elements with the same key and
    moves no other element past one of its own key. *)
Lemma insert_with_key (q : float) (x : A) (l : list A) :
  with_key q (insert key x l) = with_key q (x :: l).
Proof.
  induction l as [|y l IH]; [reflexivity|].
  cbn [insert]. destruct (key x <=? key y)%float eqn:E; [reflexivity|].
  unfold with_key in *. cbn [filter] in *. rewrite IH.
  destruct (key x =? q)%float eqn:Ex; [|reflexivity].
  destruct (key y =? q)%float eqn:Ey; [|reflexivity].
  exfalso. rewrite eqb_sym in Ey. apply eqb_leb in Ex, Ey.
  rewrite (leb_trans _ _ _ Ex Ey) in E. discriminate.
Qed.

Lemma sort_with_key (q : float) (l : list A) :
  with_key q (sort key l) = with_key q l.
Proof.
  induction l as [|x l IH]; [reflexivity|].
  cbn [sort]. rewrite insert_with_key.
  unfold with_key in *. cbn [filter]. now rewrite IH.
Qed.

Lemma insert_head (x : A) (l : list A) :
  HdRel key_le x l -> insert key x l = x :: l.
Proof.
  destruct l as [|y l]; [reflexivity|]. intros H. inversion H; subst.
  simpl. unfold Sort.key_le in *. now rewrite H1.
Qed.

(** The sort leaves an ordered list as it is. *)
Lemma sort_sorted_id (l : list A) :
  StronglySorted key_le l -> sort key l = l.
Proof.
  intros S. apply StronglySorted_Sorted in S.
  induction S as [|x l S IH H]; [reflexivity|].
  simpl. rewrite IH. now apply insert_head.
Qed.

End ByKey.

End SortFacts.

(** ** The parser: what a line contributes, when parsing raises *)

Module LrcFacts.
Import Text Re Lrc ReFacts TextFacts.

Lemma int_ok (ds : chars) :
  (Z.of_nat (List.length ds) <= max_str_digits)%Z -> int ds = Ok (value ds).
Proof.
  intros H. unfold int.
  destruct (Z.ltb_spec max_str_digits (Z.of_nat (List.length ds)));
    [lia|reflexivity].
Qed.

Lemma int_inv (ds : chars) (n : Z) :
  int ds = Ok n ->
  n = value ds /\ (Z.of_nat (List.length ds) <= max_str_digits)%Z.
Proof.
  unfold int.
  destruct (Z.ltb_spec max_str_digits (Z.of_nat (List.length ds)));
    [discriminate|].
  intros E. injection E as <-. now split.
Qed.

Lemma int_raise (ds : chars) (e : exn) :
  int ds = Raise e ->
  e = ValueError /\ (max_str_digits < Z.of_nat (List.length ds))%Z.
Proof.
  unfold int.
  destruct (Z.ltb_spec max_str_digits (Z.of_nat (List.length ds)));
    [|discriminate].
  intros E. injection E as <-. now split.
Qed.

Lemma float_of_int_ok (n : Z) :
  (n < float_limit)%Z -> float_of_int n = Ok (PyFloat.of_int n).
Proof.
  intros H. unfold float_of_int.
  destruct (Z.ltb_spec n float_limit); [reflexivity|lia].
Qed.

Lemma float_of_int_raise (n : Z) :
  (float_limit <= n)%Z -> float_of_int n = Raise OverflowError.
Proof.
  intros H. unfold float_of_int.
  destruct (Z.ltb_spec n float_limit); [lia|reflexivity].
Qed.

(** The limit is where the rounded conversion leaves the doubles: the
    integer just below it becomes the largest double. *)
Lemma float_limit_sharp :
  PyFloat.of_int (float_limit - 1) = 1.7976931348623157e308%float /\
  PyFloat.of_int float_limit = infinity.
Proof. split; vm_compute; reflexivity. Qed.

(** The offset of an entry is [mm*60 + ss + ms/1000.0], where [ms] is the
    fraction's digits read as an integer, and the caption is the stripped
    rest of the line. *)
Lemma entry_of_match_ok (m : lrc_match) :
  within_limit m -> in_range m ->
  entry_of_match m =
    Ok (offset_of m, string_of_list_ascii (strip (group4 m))).
Proof.
  intros (L1 & L2 & L3) [Hf Hs]. unfold entry_of_match, offset_of.
  unfold minutes, seconds, fraction in *.
  rewrite (int_ok _ L1), (int_ok _ L2). cbn [bind].
  destruct (group3 m) as [ds|].
  - rewrite (int_ok _ (L3 ds eq_refl)). cbn [bind].
    rewrite (float_of_int_ok _ Hf). cbn [bind].
    now rewrite (float_of_int_ok _ Hs).
  - cbn [bind]. rewrite (float_of_int_ok _ Hf). cbn [bind].
    now rewrite (float_of_int_ok _ Hs).
Qed.

(** Conversely, an entry is only built from fields that [int] accepts and
    that fit a float. *)
Lemma entry_of_match_inv (m : lrc_match) (e : entry) :
  entry_of_match m = Ok e ->
  within_limit m /\ in_range m /\
  e = (offset_of m, string_of_list_ascii (strip (group4 m))).
Proof.
  unfold entry_of_match, offset_of, within_limit, in_range.
  unfold minutes, seconds, fraction.
  destruct (int (group1 m)) as [mm|x] eqn:E1; cbn [bind]; [|discriminate].
  destruct (int (group2 m)) as [ss|x] eqn:E2; cbn [bind]; [|discriminate].
  apply int_inv in E1, E2. destruct E1 as [-> L1], E2 as [-> L2].
  assert (G : forall ms,
            match group3 m with Some ds => int ds | None => Ok 0%Z end
            = Ok ms ->
            ms = match group3 m with Some ds => value ds | None => 0%Z end /\
            forall ds, group3 m = Some ds ->
                       (Z.of_nat (List.length ds) <= max_str_digits)%Z).
  { intros ms. destruct (group3 m) as [ds|].
    - intros E. apply int_inv in E. destruct E as [-> L]. split; [easy|].
      intros ds' D. now injection D as <-.
    - intros E. injection E as <-. split; [reflexivity|discriminate]. }
  destruct (match group3 m with Some ds => int ds | None => Ok 0%Z end)
    as [ms|x]; cbn [bind]; [|discriminate].
  destruct (G ms eq_refl) as [-> L3]. clear G.
  unfold float_of_int.
  destruct (Z.ltb_spec
              (match group3 m with Some ds => value ds | None => 0%Z end)
              float_limit) as [Lf|Lf]; cbn [bind]; [|discriminate].
  destruct (Z.ltb_spec (value (group1 m) * 60 + value (group2 m))%Z
              float_limit) as [Ls|Ls]; cbn [bind]; [|discriminate].
  intros E. injection E as <-. now repeat split.
Qed.

Lemma entry_of_match_raise (m : lrc_match) (e : exn) :
  entry_of_match m = Raise e -> rejects e m.
Proof.
  unfold entry_of_match, rejects, within_limit, in_range.
  unfold minutes, seconds, fraction.
  destruct (int (group1 m)) as [mm|x] eqn:E1; cbn [bind].
  2:{ intros H. injection H as <-. apply int_raise in E1.
      destruct E1 as [-> L]. left. split; [reflexivity|]. lia. }
  destruct (int (group2 m)) as [ss|x] eqn:E2; cbn [bind].
  2:{ intros H. injection H as <-. apply int_raise in E2.
      destruct E2 as [-> L]. left. split; [reflexivity|]. lia. }
  apply int_inv in E1, E2. destruct E1 as [-> L1], E2 as [-> L2].
  destruct (group3 m) as [ds|].
  - destruct (int ds) as [ms|x] eqn:E3; cbn [bind].
    2:{ intros H. injection H as <-. apply int_raise in E3.
        destruct E3 as [-> L]. left. split; [reflexivity|].
        intros (_ & _ & L3). specialize (L3 ds eq_refl). lia. }
    apply int_inv in E3. destruct E3 as [-> L3]. unfold float_of_int.
    destruct (Z.ltb_spec (value ds) float_limit) as [Lf|Lf]; cbn [bind].
    + destruct (Z.ltb_spec (value (group1 m) * 60 + value (group2 m))%Z
                  float_limit) as [Ls|Ls]; cbn [bind]; [discriminate|].
      intros E. injection E as <-. right. split; [reflexivity|lia].
    + intros E. injection E as <-. right. split; [reflexivity|lia].
  - cbn [bind]. unfold float_of_int.
    change (0 <? float_limit)%Z with true. cbn [bind].
    destruct (Z.ltb_spec (value (group1 m) * 60 + value (group2 m))%Z
                float_limit) as [Ls|Ls]; cbn [bind]; [discriminate|].
    intros E. injection E as <-. right. split; [reflexivity|lia].
Qed.

(** A field beyond the digit limit is met before any conversion to
    float. *)
Lemma entry_of_match_value_error (m : lrc_match) :
  ~ within_limit m -> entry_of_match m = Raise ValueError.
Proof.
  intros N. unfold entry_of_match.
  destruct (int (group1 m)) as [mm|x] eqn:E1; cbn [bind].
  2:{ apply int_raise in E1. now destruct E1 as [-> _]. }
  destruct (int (group2 m)) as [ss|x] eqn:E2; cbn [bind].
  2:{ apply int_raise in E2. now destruct E2 as [-> _]. }
  apply int_inv in E1, E2. destruct E1 as [_ L1], E2 as [_ L2].
  destruct (group3 m) as [ds|] eqn:G.
  - destruct (int ds) as [ms|x] eqn:E3; cbn [bind].
    + exfalso. apply N. apply int_inv in E3. destruct E3 as [_ L3].
      split; [exact L1|]. split; [exact L2|].
      intros ds' D. rewrite G in D. now injection D as <-.
    + apply int_raise in E3. now destruct E3 as [-> _].
  - exfalso. apply N. split; [exact L1|]. split; [exact L2|].
    intros ds' D. congruence.
Qed.

Lemma entry_of_match_overflow (m : lrc_match) :
  within_limit m -> ~ in_range m -> entry_of_match m = Raise OverflowError.
Proof.
  intros W N. destruct (entry_of_match m) as [e|x] eqn:E.
  - apply entry_of_match_inv in E. now destruct E as (_ & R & _).
  - apply entry_of_match_raise in E.
    destruct E as [[_ F]|[-> _]]; [contradiction|reflexivity].
Qed.

Lemma append_matches_ok (ms : list lrc_match) (entries es : list entry) :
  append_matches entries ms = Ok es ->
  exists extra, es = entries ++ extra /\ List.length extra = List.length ms.
Proof.
  revert entries. induction ms as [|m ms IH]; intros entries; simpl.
  - intros H. injection H as <-. exists []. now rewrite app_nil_r.
  - destruct (entry_of_match m) as [e|x]; cbn [bind]; [|discriminate].
    intros H. apply IH in H. destruct H as (extra & -> & L).
    exists (e :: extra). rewrite <- app_assoc. simpl. now rewrite L.
Qed.

Lemma append_matches_raise (ms : list lrc_match) (entries : list entry)
  (e : exn) :
  append_matches entries ms = Raise e -> Exists (rejects e) ms.
Proof.
  revert entries. induction ms as [|m ms IH]; intros entries; simpl.
  - discriminate.
  - destruct (entry_of_match m) as [x|x] eqn:E; cbn [bind].
    + intros H. apply IH in H. now right.
    + intros H. injection H as <-. apply entry_of_match_raise in E.
      now left.
Qed.

(** A line without a match is skipped: the entries are left as they are
    and nothing is raised. *)
Lemma parse_line_no_marker (entries : list entry) (line : chars) :
  finditer (strip line) = [] -> parse_line entries line = Ok entries.
Proof. unfold parse_line. now intros ->. Qed.

(** A line of a file never adds more than one entry: the first match's
    last group runs to the end of the line. *)
Lemma parse_line_at_most_one (entries es : list entry) (line : chars) :
  line_shape line -> parse_line entries line = Ok es ->
  exists extra, es = entries ++ extra /\ (List.length extra <= 1)%nat.
Proof.
  intros S H. apply append_matches_ok in H. destruct H as (extra & -> & L).
  exists extra. split; [reflexivity|]. rewrite L.
  apply finditer_at_most_one. now apply strip_line_no_LF.
Qed.

Lemma parse_lines_no_marker (entries : list entry) (ls : list chars) :
  Forall (fun l => finditer (strip l) = []) ls ->
  parse_lines entries ls = Ok entries.
Proof.
  induction 1 as [|l ls H _ IH]; simpl; [reflexivity|].
  now rewrite (parse_line_no_marker _ _ H).
Qed.

Lemma parse_lines_raise (ls : list chars) (entries : list entry) (e : exn) :
  parse_lines entries ls = Raise e ->
  Exists (fun l => Exists (rejects e) (finditer (strip l))) ls.
Proof.
  revert entries. induction ls as [|l ls IH]; intros entries; simpl.
  - discriminate.
  - destruct (parse_line entries l) as [es|x] eqn:E; cbn [bind].
    + intros H. apply IH in H. now right.
    + intros H. injection H as <-. apply append_matches_raise in E.
      now left.
Qed.

(** The parser never returns more entries than the source has lines. *)
Lemma parse_lines_length (ls : list chars) (entries es : list entry) :
  Forall line_shape ls -> parse_lines entries ls = Ok es ->
  (List.length es <= List.length entries + List.length ls)%nat.
Proof.
  intros F. revert entries es.
  induction F as [|l ls S _ IH]; intros entries es; simpl.
  - intros H. injection H as <-. lia.
  - destruct (parse_line entries l) as [es'|x] eqn:E; cbn [bind];
      [|discriminate].
    intros H. apply IH in H.
    apply (parse_line_at_most_one _ _ _ S) in E.
    destruct E as (extra & -> & L). rewrite length_app in H. lia.
Qed.

Lemma read_entries_length (content : string) (es : list entry) :
  read_entries content = Ok es ->
  (List.length es <= List.length (lines content))%nat.
Proof.
  intros H. apply (parse_lines_length _ [] _ (lines_shape content)) in H.
  exact H.
Qed.

(** A source without any match parses to the empty timeline. *)
Lemma parse_lrc_no_marker (fs : filesystem) (path content : string) :
  fs path = Some content ->
  Forall (fun l => finditer (strip l) = []) (lines content) ->
  parse_lrc fs path = Ok [].
Proof.
  intros R H. unfold parse_lrc, read_entries. rewrite R.
  now rewrite (parse_lines_no_marker _ _ H).
Qed.

(** Parsing raises in three situations and no other: the source cannot be
    read ([OSError]); a marker holds a field of more than 4300 digits
    ([ValueError]); a marker holds a number too large for a float
    ([OverflowError]). *)
Lemma parse_lrc_raise (fs : filesystem) (path : string) (e : exn) :
  parse_lrc fs path = Raise e ->
  (e = OSError /\ fs path = None) \/
  (exists content, fs path = Some content /\
     Exists (fun l => Exists (rejects e) (finditer (strip l)))
            (lines content)).
Proof.
  unfold parse_lrc, read_entries. destruct (fs path) as [content|].
  - destruct (parse_lines [] (lines content)) as [es|x] eqn:E; cbn [bind];
      [discriminate|].
    intros H. injection H as <-. apply parse_lines_raise in E.
    right. now exists content.
  - intros H. injection H as <-. now left.
Qed.

(** A readable source whose markers all stay within the digit limit and
    in the range of a float is parsed to a timeline. *)
Lemma parse_lrc_returns (fs : filesystem) (path content : string) :
  fs path = Some content ->
  Forall (fun l => Forall (fun m => within_limit m /\ in_range m)
                          (finditer (strip l))) (lines content) ->
  exists timeline, parse_lrc fs path = Ok timeline.
Proof.
  intros R F. destruct (parse_lrc fs path) as [tl|e] eqn:E;
    [now exists tl|].
  exfalso. apply parse_lrc_raise in E.
  destruct E as [[_ N]|(c & Hc & X)]; [congruence|].
  rewrite R in Hc. injection Hc as <-.
  apply Exists_exists in X. destruct X as (l & Il & X).
  apply Exists_exists in X. destruct X as (m & Im & X).
  rewrite Forall_forall in F. specialize (F l Il).
  rewrite Forall_forall in F. destruct (F m Im) as [W G].
  destruct X as [[_ X]|[_ X]]; contradiction.
Qed.

End LrcFacts.

(** ** More on [strip] *)

Module StripFacts.
Import Text Shape TextFacts.

Lemma lstrip_head (s r : chars) (c : ascii) :
  lstrip s = c :: r -> is_space c = false.
Proof.
  induction s as [|d s IH]; simpl; [discriminate|].
  destruct (is_space d) eqn:E; [exact IH|].
  intros H. injection H as <- _. exact E.
Qed.

Lemma lstrip_app_nonspace (a b : chars) (c : ascii) :
  is_space c = false -> lstrip (a ++ c :: b) = lstrip a ++ c :: b.
Proof.
  intros N. induction a as [|d a IH]; simpl; [now rewrite N|].
  destruct (is_space d); [exact IH|reflexivity].
Qed.

Lemma lstrip_spaces (s : chars) :
  Forall (fun c => is_space c = true) s -> lstrip s = [].
Proof.
  induction 1 as [|c s H _ IH]; simpl; [reflexivity|]. now rewrite H.
Qed.

(** A text is white space only, or white space, a visible character and
    a rest. *)
Lemma spaces_then_visible (s : chars) :
  Forall (fun c => is_space c = true) s \/
  exists sp c r, s = sp ++ c :: r /\
    Forall (fun c => is_space c = true) sp /\ is_space c = false.
Proof.
  induction s as [|d s IH]; [left; constructor|].
  destruct (is_space d) eqn:E.
  - destruct IH as [IH|(sp & c & r & -> & F & N)].
    + left. now constructor.
    + right. exists (d :: sp), c, r. repeat split; [|exact N].
      now constructor.
  - right. exists [], d, s. repeat split; [constructor|exact E].
Qed.

Lemma rstrip_app_nonspace (a b : chars) (c : ascii) :
  is_space c = false -> rstrip (a ++ c :: b) = a ++ c :: rstrip b.
Proof.
  intros N. unfold rstrip. rewrite rev_app_distr. simpl.
  rewrite <- app_assoc. simpl. rewrite (lstrip_app_nonspace _ _ _ N).
  rewrite rev_app_distr. simpl. rewrite rev_involutive.
  now rewrite <- app_assoc.
Qed.

Lemma rstrip_spaces (s : chars) :
  Forall (fun c => is_space c = true) s -> rstrip s = [].
Proof.
  intros F. unfold rstrip. rewrite lstrip_spaces; [reflexivity|].
  apply Forall_rev. exact F.
Qed.

Lemma lstrip_idem (s : chars) : lstrip (lstrip s) = lstrip s.
Proof.
  destruct (lstrip s) as [|c r] eqn:E; [reflexivity|].
  apply lstrip_head in E. simpl. now rewrite E.
Qed.

Lemma rstrip_idem (s : chars) : rstrip (rstrip s) = rstrip s.
Proof.
  unfold rstrip. now rewrite rev_involutive, lstrip_idem.
Qed.

(** Stripping the two ends can be done in either order. *)
Lemma lstrip_rstrip (s : chars) : lstrip (rstrip s) = rstrip (lstrip s).
Proof.
  destruct (spaces_then_visible s) as [F|(sp & c & r & -> & F & N)].
  - now rewrite (rstrip_spaces _ F), (lstrip_spaces _ F).
  - rewrite (rstrip_app_nonspace _ _ _ N), !(lstrip_app_nonspace _ _ _ N).
    rewrite (lstrip_spaces _ F). cbn [app].
    exact (eq_sym (rstrip_app_nonspace [] r c N)).
Qed.

Lemma strip_rstrip (s : chars) : strip (rstrip s) = strip s.
Proof.
  unfold strip. now rewrite lstrip_rstrip, rstrip_idem.
Qed.

Lemma strip_idem (s : chars) : strip (strip s) = strip s.
Proof.
  unfold strip. now rewrite lstrip_rstrip, lstrip_idem, rstrip_idem.
Qed.

Lemma last_app_one (a : chars) (c d : ascii) : last (a ++ [c]) d = c.
Proof. apply last_last. Qed.

(** [strip] leaves no white space at either end. *)
Lemma strip_trimmed (s : chars) : trimmed (strip s) = true.
Proof.
  unfold strip.
  destruct (spaces_then_visible (lstrip s)) as [F|(sp & c & r & E & F & N)].
  - now rewrite (rstrip_spaces _ F).
  - rewrite E, (rstrip_app_nonspace _ _ _ N).
    assert (Hsp : sp = []).
    { destruct sp as [|d sp']; [reflexivity|].
      exfalso. simpl in E. apply lstrip_head in E.
      inversion F; subst. congruence. }
    subst sp. cbn [app]. clear E F.
    destruct (spaces_then_visible (rev r))
      as [G|(sp' & c' & r' & E' & G & N')].
    + unfold rstrip. rewrite (lstrip_spaces _ G). simpl. now rewrite N.
    + unfold rstrip. rewrite E', (lstrip_app_nonspace _ _ _ N').
      rewrite (lstrip_spaces _ G). cbn [app rev].
      unfold trimmed. rewrite N. cbn [negb andb].
      change (c :: rev r' ++ [c']) with ((c :: rev r') ++ [c']).
      now rewrite last_app_one, N'.
Qed.

Lemma length_lstrip (s : chars) :
  (List.length (lstrip s) <= List.length s)%nat.
Proof.
  induction s as [|c s IH]; simpl; [lia|].
  destruct (is_space c); simpl; lia.
Qed.

Lemma length_strip (s : chars) :
  (List.length (strip s) <= List.length s)%nat.
Proof.
  unfold strip, rstrip. rewrite length_rev.
  etransitivity; [apply length_lstrip|]. rewrite length_rev.
  apply length_lstrip.
Qed.

End StripFacts.

(** ** The pattern on well-formed markers *)

Module MarkerFacts.
Import Text Re Shape ReFacts.

Lemma digits_all (s : chars) :
  Forall (fun c => is_digit c = true) (fst (digits s)).
Proof.
  induction s as [|c s IH]; simpl; [constructor|].
  destruct (is_digit c) eqn:E; [|constructor].
  destruct (digits s) as [ds r]. simpl in *. now constructor.
Qed.

(** A run of digits followed by something else is taken whole. *)
Lemma digits_exact (ds r : chars) :
  Forall (fun c => is_digit c = true) ds ->
  match r with [] => True | c :: _ => is_digit c = false end ->
  digits (ds ++ r) = (ds, r).
Proof.
  intros F N. induction F as [|d ds H _ IH]; simpl.
  - destruct r as [|c r]; [reflexivity|]. simpl. now rewrite N.
  - now rewrite H, IH.
Qed.

Lemma digits1_exact (ds r : chars) :
  ds <> [] -> Forall (fun c => is_digit c = true) ds ->
  match r with [] => True | c :: _ => is_digit c = false end ->
  digits1 (ds ++ r) = Some (ds, r).
Proof.
  intros E F N. unfold digits1. rewrite (digits_exact _ _ F N).
  destruct ds; [contradiction|reflexivity].
Qed.

Lemma digits1_all (s ds r : chars) :
  digits1 s = Some (ds, r) -> Forall (fun c => is_digit c = true) ds.
Proof.
  unfold digits1. pose proof (digits_all s) as H.
  destruct (digits s) as [[|d ds'] r']; [discriminate|].
  intros E. injection E as <- <-. exact H.
Qed.

(** What a successful attempt has read: the text is the marker with its
    groups, followed by what is left. *)
Lemma match_here_shape (s rest : chars) (m : lrc_match) :
  match_here s = Some (m, rest) ->
  s = marker_line (group1 m) (group2 m) (group3 m) (group4 m ++ rest) /\
  digit_groups m.
Proof.
  unfold match_here.
  destruct (literal "[" s) as [s1|] eqn:E1; [|discriminate].
  apply literal_inv in E1. subst s.
  destruct (digits1 s1) as [[g1 s2]|] eqn:E2; [|discriminate].
  pose proof (digits1_all _ _ _ E2) as D1.
  apply digits1_inv in E2. destruct E2 as [-> _].
  destruct (literal ":" s2) as [s3|] eqn:E3; [|discriminate].
  apply literal_inv in E3. subst s2.
  destruct (digits1 s3) as [[g2 s4]|] eqn:E4; [|discriminate].
  pose proof (digits1_all _ _ _ E4) as D2.
  apply digits1_inv in E4. destruct E4 as [-> _].
  destruct (fraction_then_close s4) as [[g3 s5]|] eqn:E5; [|discriminate].
  pose proof (dot_star_app s5) as A.
  destruct (dot_star s5) as [g4 r]. simpl in A.
  intros H. injection H as <- <-. cbn [group1 group2 group3 group4].
  unfold fraction_then_close in E5.
  destruct (literal "." s4) as [t1|] eqn:F1.
  - apply literal_inv in F1. subst s4.
    destruct (digits1 t1) as [[ds t2]|] eqn:F2.
    + pose proof (digits1_all _ _ _ F2) as D3.
      apply digits1_inv in F2. destruct F2 as [-> _].
      destruct (literal "]" t2) as [t3|] eqn:F3.
      * apply literal_inv in F3. subst t2. injection E5 as <- <-.
        split.
        -- unfold marker_line. now rewrite A.
        -- repeat split; try assumption.
           intros ds' H. now injection H as <-.
      * simpl in E5. discriminate.
    + simpl in E5. discriminate.
  - destruct (literal "]" s4) as [t3|] eqn:F3; [|discriminate].
    apply literal_inv in F3. subst s4. injection E5 as <- <-. split.
    + unfold marker_line. now rewrite A.
    + repeat split; try assumption. discriminate.
Qed.

Lemma finditer_from_nil (n : nat) : finditer_from n [] = [].
Proof. now destruct n. Qed.

(** Every match the iterator yields sits somewhere in the text. *)
Lemma finditer_from_shape (n : nat) (s : chars) (m : lrc_match) :
  In m (finditer_from n s) ->
  digit_groups m /\
  exists pre rest,
    s = pre ++
        marker_line (group1 m) (group2 m) (group3 m) (group4 m ++ rest).
Proof.
  revert s. induction n as [|n IH]; intros s; [intros []|].
  destruct s as [|c s']; [intros []|]. cbn [finditer_from].
  destruct (match_here (c :: s')) as [[x rest]|] eqn:E.
  - intros [<-|I].
    + apply match_here_shape in E. destruct E as [E D].
      split; [exact D|]. now exists [], rest.
    + apply match_here_inv in E. destruct E as [(q & E) _].
      destruct (IH _ I) as (D & pre & rest' & ->). split; [exact D|].
      exists ("["%char :: q ++ pre), rest'. rewrite E.
      simpl. now rewrite <- app_assoc.
  - intros I. destruct (IH _ I) as (D & pre & rest & ->).
    split; [exact D|]. now exists (c :: pre), rest.
Qed.

(** The pattern accepts every well-formed marker and takes the whole
    rest of the line as its text. *)
Lemma match_here_marker_line (mm ss : chars) (frac : option chars)
  (text : chars) :
  mm <> [] -> Forall (fun c => is_digit c = true) mm ->
  ss <> [] -> Forall (fun c => is_digit c = true) ss ->
  (forall ds, frac = Some ds ->
     ds <> [] /\ Forall (fun c => is_digit c = true) ds) ->
  ~ In LF text ->
  match_here (marker_line mm ss frac text)
  = Some (mk_match mm ss frac text, []).
Proof.
  intros Em Fm Es Fs Hf N. unfold match_here, marker_line.
  cbn [literal]. rewrite Ascii.eqb_refl.
  rewrite (digits1_exact mm _ Em Fm) by reflexivity.
  cbn [literal]. rewrite Ascii.eqb_refl.
  destruct frac as [ds|].
  - destruct (Hf ds eq_refl) as [Ed Fd].
    rewrite (digits1_exact ss _ Es Fs) by reflexivity.
    unfold fraction_then_close. cbn [literal]. rewrite Ascii.eqb_refl.
    rewrite (digits1_exact ds _ Ed Fd) by reflexivity.
    cbn [literal]. rewrite Ascii.eqb_refl.
    now rewrite (dot_star_no_LF _ N).
  - rewrite (digits1_exact ss _ Es Fs) by reflexivity.
    unfold fraction_then_close. cbn [literal].
    change (Ascii.eqb "]" ".") with false. cbn iota.
    rewrite Ascii.eqb_refl.
    now rewrite (dot_star_no_LF _ N).
Qed.

Lemma finditer_marker_line (mm ss : chars) (frac : option chars)
  (text : chars) :
  mm <> [] -> Forall (fun c => is_digit c = true) mm ->
  ss <> [] -> Forall (fun c => is_digit c = true) ss ->
  (forall ds, frac = Some ds ->
     ds <> [] /\ Forall (fun c => is_digit c = true) ds) ->
  ~ In LF text ->
  finditer (marker_line mm ss frac text) = [mk_match mm ss frac text].
Proof.
  intros Em Fm Es Fs Hf N. unfold finditer.
  pose proof (match_here_marker_line mm ss frac text Em Fm Es Fs Hf N) as M.
  unfold marker_line in *. cbn [List.length finditer_from].
  rewrite M. now rewrite finditer_from_nil.
Qed.

End MarkerFacts.

(** ** Entries of a parsed timeline *)

Module TimelineFacts.
Import Text Re Lrc Shape Player.
Import ReFacts TextFacts FloatFacts SortFacts LrcFacts StripFacts MarkerFacts.

Local Open Scope Z_scope.

Lemma digit_value_range (c : ascii) :
  is_digit c = true -> 0 <= digit_value c <= 9.
Proof.
  unfold is_digit, digit_value. intros H.
  apply andb_prop in H. destruct H as [L U].
  apply N.leb_le in L, U. lia.
Qed.

Lemma int_acc_range (ds : chars) (acc : Z) :
  Forall (fun c => is_digit c = true) ds -> 0 <= acc ->
  0 <= int_acc acc ds < (acc + 1) * 10 ^ Z.of_nat (List.length ds).
Proof.
  intros F. revert acc. induction F as [|d ds H _ IH]; intros acc A.
  - simpl. lia.
  - cbn [int_acc List.length]. apply digit_value_range in H.
    specialize (IH (acc * 10 + digit_value d) ltac:(lia)).
    rewrite Nat2Z.inj_succ, Z.pow_succ_r by lia.
    split; [lia|]. eapply Z.lt_le_trans; [apply IH|].
    assert (P : 0 < 10 ^ Z.of_nat (List.length ds))
      by (apply Z.pow_pos_nonneg; lia).
    nia.
Qed.

(** A run of digits denotes a natural number below ten to the number of
    digits. *)
Lemma value_range (ds : chars) :
  Forall (fun c => is_digit c = true) ds ->
  0 <= value ds < 10 ^ Z.of_nat (List.length ds).
Proof.
  intros F. pose proof (int_acc_range ds 0 F ltac:(lia)) as H.
  unfold value. lia.
Qed.

Lemma fields_nonneg (m : lrc_match) :
  digit_groups m -> 0 <= minutes m /\ 0 <= seconds m /\ 0 <= fraction m.
Proof.
  intros (D1 & D2 & D3). unfold minutes, seconds, fraction.
  pose proof (value_range _ D1). pose proof (value_range _ D2).
  repeat split; try lia.
  destruct (group3 m) as [ds|]; [|lia].
  pose proof (value_range _ (D3 ds eq_refl)). lia.
Qed.

(** The offset computed from a match is [+0], a positive number or
    [+inf]: never negative, never NaN. *)
Lemma offset_of_nonneg (m : lrc_match) :
  digit_groups m -> PyFloat.nonneg (offset_of m).
Proof.
  intros D. destruct (fields_nonneg m D) as (M & S & F).
  unfold offset_of. apply add_nonneg.
  - apply of_int_nonneg. lia.
  - apply div_1000_nonneg, of_int_nonneg. exact F.
Qed.

Lemma entry_of_match_entry_ok (m : lrc_match) (e : entry) :
  digit_groups m -> entry_of_match m = Ok e -> entry_ok e.
Proof.
  intros D H. apply entry_of_match_inv in H. destruct H as (_ & _ & ->).
  split; cbn [start_offset caption fst snd].
  - apply nonneg_leb. now apply offset_of_nonneg.
  - rewrite list_ascii_of_string_of_list_ascii. apply strip_trimmed.
Qed.

(** A marker without fraction contributes whole seconds only: the offset
    is the double nearest to [mm*60 + ss]. *)
Lemma entry_of_match_no_fraction (m : lrc_match) (e : entry) :
  digit_groups m -> group3 m = None -> entry_of_match m = Ok e ->
  start_offset e = PyFloat.of_int (minutes m * 60 + seconds m).
Proof.
  intros D G H. destruct (fields_nonneg m D) as (M & S & _).
  apply entry_of_match_inv in H. destruct H as (_ & _ & ->).
  cbn [start_offset fst]. unfold offset_of, fraction. rewrite G.
  change (PyFloat.of_int 0 / 1000)%float with 0%float.
  apply add_0_r, of_int_nonneg. lia.
Qed.

Lemma finditer_digit_groups (s : chars) : Forall digit_groups (finditer s).
Proof.
  apply Forall_forall. intros m I.
  now apply (finditer_from_shape _ _ _ I).
Qed.

Section Lifting.
Variable P : entry -> Prop.
Hypothesis P_match :
  forall m e, digit_groups m -> entry_of_match m = Ok e -> P e.

Lemma append_matches_Forall (ms : list lrc_match) (entries es : list entry) :
  Forall digit_groups ms -> Forall P entries ->
  append_matches entries ms = Ok es -> Forall P es.
Proof.
  intros D. revert entries.
  induction D as [|m ms Dm _ IH]; intros entries F; simpl.
  - intros H. now injection H as <-.
  - destruct (entry_of_match m) as [e|x] eqn:E; cbn [bind]; [|discriminate].
    apply IH. apply Forall_app. split; [exact F|].
    constructor; [|constructor]. now apply (P_match m).
Qed.

Lemma parse_lines_Forall (ls : list chars) (entries es : list entry) :
  Forall P entries -> parse_lines entries ls = Ok es -> Forall P es.
Proof.
  revert entries. induction ls as [|l ls IH]; intros entries F; simpl.
  - intros H. now injection H as <-.
  - destruct (parse_line entries l) as [es'|x] eqn:E; cbn [bind];
      [|discriminate].
    apply IH. unfold parse_line in E.
    exact (append_matches_Forall _ _ _ (finditer_digit_groups _) F E).
Qed.

End Lifting.

(** Every entry read from a source is well formed. *)
Lemma read_entries_Forall_entry_ok (content : string) (es : list entry) :
  read_entries content = Ok es -> Forall entry_ok es.
Proof.
  apply (parse_lines_Forall entry_ok entry_of_match_entry_ok
           (lines content) [] es).
  constructor.
Qed.

(** No offset is NaN, so the offsets read from a source are totally
    ordered. *)
Lemma entry_ok_keys_ordered (es : list entry) :
  Forall entry_ok es -> Sort.keys_ordered start_offset es.
Proof.
  apply Forall_impl. intros e [H _]. exact (leb_refl_r _ _ H).
Qed.

(** Every entry that [parse_lrc] returns is well formed. *)
Lemma parse_lrc_Forall_entry_ok
  (fs : filesystem) (path : string) (timeline : list entry) :
  parse_lrc fs path = Ok timeline -> Forall entry_ok timeline.
Proof.
  unfold parse_lrc.
  destruct (fs path) as [content|]; [|discriminate].
  destruct (read_entries content) as [es|x] eqn:E; cbn [bind];
    [|discriminate].
  intros H. injection H as <-.
  apply (Permutation_Forall (sort_perm start_offset es)).
  now apply (read_entries_Forall_entry_ok content).
Qed.

(** The final sort puts the entries in order of offset. *)
Lemma parse_lrc_nondecreasing
  (fs : filesystem) (path : string) (timeline : list entry) :
  parse_lrc fs path = Ok timeline -> nondecreasing timeline.
Proof.
  unfold parse_lrc. destruct (fs path) as [content|]; [|discriminate].
  destruct (read_entries content) as [es|x] eqn:E; cbn [bind];
    [|discriminate].
  intros H. injection H as <-. apply sort_sorted.
  apply entry_ok_keys_ordered.
  now apply (read_entries_Forall_entry_ok content).
Qed.

End TimelineFacts.

(** ** The resolver loop *)

Module PlayerFacts.
Import Lrc Player FloatFacts SortFacts.

Local Open Scope float_scope.
Local Open Scope string_scope.

Lemma truthy_iff (text : string) : truthy text = true <-> text <> "".
Proof. destruct text; simpl; split; congruence. Qed.

Lemma truthy_false (text : string) : truthy text = false <-> text = "".
Proof. destruct text; simpl; split; congruence. Qed.

(** With the mixer up whenever the flag says so, the position query
    returns. *)
Lemma get_play_time_ok (s : MusicPlayer) (w : World) :
  mixer_ready s w -> exists t, get_play_time s w = Ok t.
Proof.
  unfold mixer_ready, get_play_time, music_get_pos. intros R.
  destruct (pygame_initialized s); simpl; [|now eexists].
  rewrite R by reflexivity. cbn [bind].
  destruct (get_pos w >=? 0)%Z; [now eexists|].
  destruct (playing s && negb (paused s))%bool; [now eexists|].
  destruct (paused s); now eexists.
Qed.

(** The query reads the flags, the two time fields and nothing else. *)
Lemma get_play_time_set_lyric (text : string) (s : MusicPlayer) (w : World) :
  get_play_time (set_lyric text s) w = get_play_time s w.
Proof. reflexivity. Qed.

Lemma last_started_none (bound : float) (l : list entry) :
  Forall (fun x => (start_offset x <=? bound)%float = false) l ->
  last_started bound l = None.
Proof.
  induction 1 as [|e l H _ IH]; simpl; [reflexivity|].
  now rewrite IH, H.
Qed.

(** On an ordered timeline the loop ends on the last started entry. *)
Lemma scan_last_started (bound : float) (l : list entry) (text : string) :
  nondecreasing l ->
  scan bound l text =
    match last_started bound l with
    | Some e => caption e
    | None => text
    end.
Proof.
  intros S. revert text.
  induction S as [|e l S IH H]; intros text; simpl; [reflexivity|].
  destruct e as [time_s lyric]. cbn [start_offset fst].
  destruct (time_s <=? bound)%float eqn:E.
  - rewrite IH. now destruct (last_started bound l).
  - rewrite last_started_none; [reflexivity|].
    revert H. apply Forall_impl.
    intros x Hx. unfold Sort.key_le in Hx. cbn [start_offset fst] in Hx.
    destruct (start_offset x <=? bound)%float eqn:Ex; [|reflexivity].
    now rewrite (leb_trans _ _ _ Hx Ex) in E.
Qed.

(** What [last_started] returns is an entry that has started and that no
    started entry follows. *)
Lemma last_started_spec (bound : float) (l : list entry) (e : entry) :
  last_started bound l = Some e ->
  (start_offset e <=? bound)%float = true /\
  exists l1 l2, l = (l1 ++ e :: l2)%list /\
    Forall (fun x => (start_offset x <=? bound)%float = false) l2.
Proof.
  revert e. induction l as [|a l IH]; intros e; simpl; [discriminate|].
  destruct (last_started bound l) as [x|] eqn:E.
  - intros H. injection H as ->.
    destruct (IH e eq_refl) as (L & l1 & l2 & -> & F).
    split; [exact L|]. now exists (a :: l1), l2.
  - destruct (start_offset a <=? bound)%float eqn:Ea; [|discriminate].
    intros H. injection H as ->.
    split; [exact Ea|]. exists [], l. split; [reflexivity|].
    clear IH Ea. induction l as [|b l IHl]; [constructor|].
    simpl in E. destruct (last_started bound l); [discriminate|].
    destruct (start_offset b <=? bound)%float eqn:Eb; [discriminate|].
    constructor; [exact Eb|now apply IHl].
Qed.

(** Entries behind the last started one are not tied with it. *)
Lemma not_started_not_tied (bound : float) (e : entry) (l : list entry) :
  (start_offset e <=? bound)%float = true ->
  Forall (fun x => (start_offset x <=? bound)%float = false) l ->
  Forall (fun x => (start_offset x =? start_offset e)%float = false) l.
Proof.
  intros L. apply Forall_impl. intros x Hx.
  destruct (start_offset x =? start_offset e)%float eqn:Q; [|reflexivity].
  apply eqb_leb in Q. now rewrite (leb_trans _ _ _ Q L) in Hx.
Qed.

(** The loop's result depends on the bound only through the position it
    stops at. *)
Lemma scan_cursor (b1 b2 : float) (l : list entry) (text : string) :
  cursor b1 l = cursor b2 l -> scan b1 l text = scan b2 l text.
Proof.
  revert text. induction l as [|[time_s lyric] l IH]; intros text; simpl;
    [reflexivity|].
  destruct (time_s <=? b1)%float, (time_s <=? b2)%float;
    try discriminate; [|reflexivity].
  intros H. injection H as H. now apply IH.
Qed.

(** The position the loop stops at lies in the timeline. *)
Lemma cursor_le_length (bound : float) (l : list entry) :
  (cursor bound l <= List.length l)%nat.
Proof.
  induction l as [|[time_s lyric] l IH]; simpl; [lia|].
  destruct (time_s <=? bound)%float; lia.
Qed.

Lemma cursor_entry (bound : float) (l : list entry) (c : nat) :
  cursor bound l = S c -> exists e, nth_error l c = Some e.
Proof.
  intros C. pose proof (cursor_le_length bound l) as L. rewrite C in L.
  destruct (nth_error l c) as [e|] eqn:N; [now exists e|].
  apply nth_error_None in N. lia.
Qed.

(** The loop's result is the caption of the entry at the position it
    stops at. *)
Lemma scan_entry_at (bound : float) (l : list entry) (text : string) :
  scan bound l text =
    match entry_at (cursor bound l) l with
    | Some e => caption e
    | None => text
    end.
Proof.
  revert text. induction l as [|[time_s lyric] l IH]; intros text; simpl;
    [reflexivity|].
  destruct (time_s <=? bound)%float; [|reflexivity].
  rewrite IH. cbn [entry_at].
  destruct (cursor bound l) as [|c] eqn:C; [reflexivity|].
  destruct (cursor_entry _ _ _ C) as [e N]. cbn [entry_at nth_error].
  now rewrite N.
Qed.

(** A larger bound never stops the loop earlier. *)
Lemma cursor_mono (b1 b2 : float) (l : list entry) :
  (b1 <=? b2)%float = true -> (cursor b1 l <= cursor b2 l)%nat.
Proof.
  intros L. induction l as [|[time_s lyric] l IH]; simpl; [lia|].
  destruct (time_s <=? b1)%float eqn:E1; [|lia].
  rewrite (leb_trans _ _ _ E1 L). lia.
Qed.

(** Nothing has started: the loop leaves [text] alone. *)
Lemma scan_not_started (bound : float) (l : list entry) (text : string) :
  head_not_started bound l -> scan bound l text = text.
Proof.
  destruct l as [|[time_s lyric] l]; simpl; [reflexivity|].
  cbn [start_offset fst]. intros H. now rewrite (ltb_leb _ _ H).
Qed.

Lemma cursor_not_started (bound : float) (l : list entry) :
  head_not_started bound l -> cursor bound l = O.
Proof.
  destruct l as [|[time_s lyric] l]; simpl; [reflexivity|].
  cbn [start_offset fst]. intros H. now rewrite (ltb_leb _ _ H).
Qed.

(** When the first entry has started and the one behind it has not, the
    first entry is presented. *)
Lemma present_first (s : MusicPlayer) (bound : float) (l : list entry)
  (t0 : float) (x : string) (rest : list entry) :
  l = (t0, x) :: rest -> (t0 <=? bound)%float = true ->
  head_not_started bound rest -> x <> "" ->
  present s (entry_at (cursor bound l) l) = Ok (set_lyric x s, Some x).
Proof.
  intros -> S0 N X. cbn [cursor]. rewrite S0.
  rewrite (cursor_not_started _ _ N). cbn [entry_at nth_error present].
  cbn [caption snd]. apply truthy_iff in X. now rewrite X.
Qed.

(** A run of [update_loop] either changes nothing or sets the display. *)
Lemma update_loop_inv (s s' : MusicPlayer) (w : World) (em : option string) :
  update_loop s w = Ok (s', em) ->
  (s' = s /\ em = None /\
   (playing s || paused s = true ->
    exists t, get_play_time s w = Ok t /\
              scan (t + tolerance) (lrc s) "" = "")%bool) \/
  (exists t text, (playing s || paused s)%bool = true /\
     get_play_time s w = Ok t /\
     text = scan (t + tolerance) (lrc s) "" /\ text <> "" /\
     s' = set_lyric text s /\ em = Some text).
Proof.
  unfold update_loop. destruct (playing s || paused s)%bool.
  - destruct (get_play_time s w) as [t|x]; cbn [bind]; [|discriminate].
    destruct (truthy (scan (t + tolerance) (lrc s) "")) eqn:T.
    + intros H. injection H as <- <-. right. exists t. eexists.
      repeat split. now apply truthy_iff.
    + intros H. injection H as <- <-. left. repeat split.
      intros _. exists t. split; [reflexivity|]. now apply truthy_false.
  - intros H. injection H as <- <-. left. repeat split. discriminate.
Qed.

(** A tick while Playing or Paused presents the entry at the position
    the loop stops at. *)
Lemma update_loop_present (s : MusicPlayer) (w : World) (t : float) :
  (playing s || paused s)%bool = true -> get_play_time s w = Ok t ->
  update_loop s w
  = present s (entry_at (cursor (t + tolerance) (lrc s)) (lrc s)).
Proof.
  intros P Ht. unfold update_loop, present. rewrite P, Ht. cbn [bind].
  rewrite scan_entry_at.
  destruct (entry_at (cursor (t + tolerance) (lrc s)) (lrc s)) as [e|];
    reflexivity.
Qed.

(** The timeline and the initialisation flag are written by [load] only:
    the transport commands and the tick hand them on unchanged, so a
    timeline that came ordered out of [parse_lrc] stays ordered for the
    whole session. *)
Lemma play_pause_keeps (s s' : MusicPlayer) (w : World) :
  play_pause s w = Ok s' ->
  lrc s' = lrc s /\ pygame_initialized s' = pygame_initialized s.
Proof.
  unfold play_pause. destruct (audio_path s).
  - destruct (negb (playing s)).
    + destruct (music_play w); intros H; injection H as <-; now split.
    + destruct (negb (paused s)).
      * destruct (music_command w); cbn [bind]; [|discriminate].
        destruct (music_get_pos w); cbn [bind]; [|discriminate].
        intros H; injection H as <-; now split.
      * destruct (music_command w); cbn [bind]; [|discriminate].
        intros H; injection H as <-; now split.
  - intros H; injection H as <-; now split.
Qed.

Lemma stop_keeps (s s' : MusicPlayer) (w : World) :
  stop s w = Ok s' ->
  lrc s' = lrc s /\ pygame_initialized s' = pygame_initialized s.
Proof.
  unfold stop.
  destruct (if pygame_initialized s then music_command w else Ok tt);
    cbn [bind]; [|discriminate].
  intros H; injection H as <-; now split.
Qed.

Lemma update_loop_keeps (s s' : MusicPlayer) (w : World)
  (em : option string) :
  update_loop s w = Ok (s', em) ->
  lrc s' = lrc s /\ pygame_initialized s' = pygame_initialized s /\
  playing s' = playing s /\ paused s' = paused s.
Proof.
  intros H. apply update_loop_inv in H.
  destruct H as [(-> & _)|(t & text & _ & _ & _ & _ & -> & _)];
    repeat split.
Qed.

(** While neither flag is set, as in the object [__init__] builds and
    after [stop], a tick does nothing. *)
Lemma update_loop_stopped (s : MusicPlayer) (w : World) :
  playing s = false -> paused s = false -> update_loop s w = Ok (s, None).
Proof. intros P Q. unfold update_loop. now rewrite P, Q. Qed.

Lemma update_loop_init (w : World) : update_loop init w = Ok (init, None).
Proof. now apply update_loop_stopped. Qed.

(** A tick returns whenever the mixer is up. *)
Lemma update_loop_ok (s : MusicPlayer) (w : World) :
  mixer_ready s w -> exists s' em, update_loop s w = Ok (s', em).
Proof.
  intros R. destruct (get_play_time_ok s w R) as [t Ht].
  unfold update_loop. rewrite Ht. cbn [bind].
  destruct (playing s || paused s)%bool; [|now do 2 eexists].
  destruct (truthy (scan (t + tolerance) (lrc s) "")); now do 2 eexists.
Qed.

End PlayerFacts.

(** * The resolver on each tick *)

Module Spec.
Import Text Re Lrc Player Examples.
Import ReFacts TextFacts FloatFacts SortFacts LrcFacts TimelineFacts.
Import PlayerFacts.

Local Open Scope float_scope.
Local Open Scope string_scope.

(** Ordered sample timelines, by evaluation of the comparisons. *)
Ltac ordered :=
  unfold nondecreasing, timeline8;
  repeat first [reflexivity | constructor].

Lemma timeline8_nondecreasing : nondecreasing timeline8.
Proof. ordered. Qed.

(** The bound of a tick is the rounded sum: with the mixer at 700 ms the
    bound is [0.7 + 0.1], which is below [0.8], and an entry at 0.8 s has
    not started. *)
Lemma tick_bound_is_rounded :
  (0.7 + 0.1 <? 0.8)%float = true /\
  get_play_time (session [(0.8, "x")] "") (report 700) = Ok 0.7 /\
  update_loop (session [(0.8, "x")] "") (report 700)
  = Ok (session [(0.8, "x")] "", None).
Proof. repeat split. Qed.

(** C1, as stated, does not hold: a tick while Playing on a non-empty
    timeline whose last started entry carries an empty caption leaves the
    older text on display; the text presented is then not that entry's. *)
Lemma C1_empty_caption_keeps_old_text :
  let s := session [(0, "A"); (1, "")] "A" in
  let w := report 1000 in
  (playing s || paused s)%bool = true /\ lrc s <> [] /\
  exists t, get_play_time s w = Ok t /\ t = 1 /\
    last_started (t + tolerance) (lrc s) = Some (1, "") /\
    update_loop s w = Ok (s, None) /\
    lyric_var s = "A" /\ lyric_var s <> caption (1, "").
Proof.
  cbv zeta. split; [reflexivity|]. split; [discriminate|].
  eexists. split; [reflexivity|].
  split; [reflexivity|]. split; [reflexivity|]. split; [reflexivity|].
  split; [reflexivity|discriminate].
Qed.

(** C1, amended: for every tick that fires while the session is Playing or
    Paused, with elapsed reading t, if the last timeline entry whose
    start_offset is at most t plus the 100 ms tolerance (the sum and the
    comparison as the tick computes them, in doubles) has a non-empty
    caption, the tick presents that caption; no later entry is tied with
    it, so among entries of equal start_offset the last one is presented.
    When that caption is empty, or no entry has started, the tick presents
    nothing. *)
Theorem C1_tick_presents_last_started (s : MusicPlayer) (w : World) :
  nondecreasing (lrc s) ->
  (playing s || paused s)%bool = true ->
  mixer_ready s w ->
  exists t, get_play_time s w = Ok t /\
    (forall e, last_started (t + tolerance) (lrc s) = Some e ->
       (caption e <> "" ->
        update_loop s w = Ok (set_lyric (caption e) s, Some (caption e))) /\
       (caption e = "" -> update_loop s w = Ok (s, None)) /\
       exists l1 l2, lrc s = (l1 ++ e :: l2)%list /\
         Forall (fun x => (start_offset x =? start_offset e)%float = false)
                l2) /\
    (last_started (t + tolerance) (lrc s) = None ->
     update_loop s w = Ok (s, None)).
Proof.
  intros S P R. destruct (get_play_time_ok s w R) as [t Ht].
  exists t. split; [exact Ht|].
  unfold update_loop. rewrite P, Ht. cbn [bind].
  rewrite (scan_last_started _ _ _ S). split.
  - intros e He. rewrite He. split; [|split].
    + intros N. apply truthy_iff in N. now rewrite N.
    + intros E. rewrite E. reflexivity.
    + destruct (last_started_spec _ _ _ He) as (L & l1 & l2 & E & F).
      exists l1, l2. split; [exact E|].
      now apply (not_started_not_tied (t + tolerance)).
  - intros ->. reflexivity.
Qed.

(** At 2000 ms the tie of "B" and "C" resolves to "C". *)
Lemma C1_witness :
  nondecreasing timeline8 /\
  update_loop (session timeline8 "B") (report 2000)
  = Ok (set_lyric "C" (session timeline8 "B"), Some "C").
Proof.
  split; [exact timeline8_nondecreasing|].
  destruct (C1_tick_presents_last_started
              (session timeline8 "B") (report 2000)
              timeline8_nondecreasing eq_refl (fun _ => eq_refl))
    as (t & Ht & H & _).
  assert (E : t = 2) by (vm_compute in Ht; congruence). subst t.
  destruct (H (2, "C") eq_refl) as [P _]. apply P. discriminate.
Defined.

(** C2, as stated, does not hold: on the example timeline with readings
    0, 1000, 2000, 2000, 6000 the second and the fourth tick call the sink
    again, with the text already shown. *)
Lemma C2_repeated_tick_emits_again :
  exists s',
    run_ticks (session timeline8 "") readings8
    = Ok (s', [Some "A"; Some "A"; Some "C"; Some "C"; Some "D"]) /\
    [Some "A"; Some "A"; Some "C"; Some "C"; Some "D"]
    <> [Some "A"; None; Some "C"; None; Some "D"].
Proof. eexists. split; [reflexivity|discriminate]. Qed.

(** C2, amended: a tick invokes the presentation sink whenever the text it
    resolves is non-empty, also when that text equals the one emitted by
    the tick before; a following tick that resolves to the same position
    emits the same text again and leaves the displayed value as it is.  On
    the example timeline with readings 0, 1000, 2000, 2000, 6000 the sink
    receives "A", "A", "C", "C", "D" and the display ends on "D". *)
Theorem C2_tick_emits_resolved_text
  (s s1 : MusicPlayer) (w1 : World) (x : string) :
  update_loop s w1 = Ok (s1, Some x) ->
  x <> "" /\ lyric_var s1 = x /\
  (forall w2, tick_cursor s1 w2 = tick_cursor s w1 ->
              update_loop s1 w2 = Ok (s1, Some x)) /\
  exists s',
    run_ticks (session timeline8 "") readings8
    = Ok (s', [Some "A"; Some "A"; Some "C"; Some "C"; Some "D"]) /\
    lyric_var s' = "D".
Proof.
  intros H. apply update_loop_inv in H.
  destruct H as [(_ & D & _)|(t & text & P & Ht & E & N & -> & D)];
    [discriminate|].
  injection D as <-. split; [exact N|]. split; [reflexivity|].
  split; [|eexists; split; reflexivity].
  intros w2. unfold tick_cursor, update_loop.
  rewrite get_play_time_set_lyric, Ht.
  cbn [bind playing paused lrc set_lyric]. rewrite P.
  destruct (get_play_time s w2) as [t2|e]; cbn [bind]; [|discriminate].
  intros C. injection C as C.
  rewrite (scan_cursor _ _ _ _ C), <- E.
  apply truthy_iff in N. rewrite N. reflexivity.
Qed.

(** The second tick of the example trace emits "A" once more. *)
Lemma C2_witness :
  update_loop (session timeline8 "") (report 0)
  = Ok (session timeline8 "A", Some "A") /\
  update_loop (session timeline8 "A") (report 1000)
  = Ok (session timeline8 "A", Some "A").
Proof.
  split; [reflexivity|].
  destruct (C2_tick_emits_resolved_text
              (session timeline8 "") (session timeline8 "A") (report 0) "A"
              eq_refl) as (_ & _ & H & _).
  apply (H (report 1000)). reflexivity.
Defined.

(** C3, as stated, does not hold: the resolver keeps no cursor; a second
    reading 100 ms below the first resolves to the entry before. *)
Lemma C3_smaller_reading_resolves_earlier :
  let s := session [(0, "A"); (2, "B")] "" in
  let s1 := session [(0, "A"); (2, "B")] "B" in
  update_loop s (report 1950) = Ok (s1, Some "B") /\
  tick_cursor s (report 1950) = Ok 2%nat /\
  update_loop s1 (report 1850) = Ok (set_lyric "A" s1, Some "A") /\
  tick_cursor s1 (report 1850) = Ok 1%nat.
Proof. cbv zeta. repeat split. Qed.

(** C3, amended: for every two ticks within one session (the object is
    Playing or Paused at both and holds the same timeline; pause, resume
    and other ticks may lie between them), each tick presents the entry
    at the position it resolves, and the second position is not earlier
    than the first provided the second tick's bound, its elapsed reading
    plus the tolerance as the tick computes it, is not smaller than the
    first tick's; the position is recomputed from the reading on every
    tick. *)
Theorem C3_position_never_earlier
  (s1 s2 : MusicPlayer) (w1 w2 : World) (t1 t2 : float) :
  lrc s2 = lrc s1 ->
  (playing s1 || paused s1)%bool = true ->
  (playing s2 || paused s2)%bool = true ->
  get_play_time s1 w1 = Ok t1 ->
  get_play_time s2 w2 = Ok t2 ->
  (t1 + tolerance <=? t2 + tolerance)%float = true ->
  exists c1 c2,
    tick_cursor s1 w1 = Ok c1 /\ tick_cursor s2 w2 = Ok c2 /\
    update_loop s1 w1 = present s1 (entry_at c1 (lrc s1)) /\
    update_loop s2 w2 = present s2 (entry_at c2 (lrc s1)) /\
    (c1 <= c2 <= List.length (lrc s1))%nat.
Proof.
  intros E P1 P2 H1 H2 L.
  exists (cursor (t1 + tolerance) (lrc s1)),
         (cursor (t2 + tolerance) (lrc s1)).
  unfold tick_cursor. rewrite H1, H2, E. cbn [bind].
  split; [reflexivity|]. split; [reflexivity|].
  split; [now apply update_loop_present|].
  split; [rewrite <- E; now apply update_loop_present|].
  split; [now apply cursor_mono|apply cursor_le_length].
Qed.

(** A tick at 1850 ms, then pause and resume, then a tick at 1950 ms: the
    position moves from "A" to "B". *)
Lemma C3_witness :
  exists s1 sp sr,
    update_loop (session [(0, "A"); (2, "B")] "") (report 1850)
    = Ok (s1, Some "A") /\
    play_pause s1 (report 1900) = Ok sp /\
    play_pause sp (report 1900) = Ok sr /\
    exists c1 c2,
      tick_cursor (session [(0, "A"); (2, "B")] "") (report 1850) = Ok c1 /\
      tick_cursor sr (report 1950) = Ok c2 /\
      update_loop sr (report 1950) = present sr (entry_at c2 (lrc s1)) /\
      (c1 <= c2)%nat.
Proof.
  do 3 eexists. split; [reflexivity|]. split; [reflexivity|].
  split; [reflexivity|].
  destruct (C3_position_never_earlier
              (session [(0, "A"); (2, "B")] "")
              (mk_player true false (Some "song.mp3") [(0, "A"); (2, "B")]
                 (0 - 1900 / 1000) 1900 true "Pause" "A")
              (report 1850) (report 1950) 1.85 1.95
              eq_refl eq_refl eq_refl eq_refl eq_refl eq_refl)
    as (c1 & c2 & H1 & H2 & _ & H3 & L & _).
  exists c1, c2. repeat split; assumption.
Defined.

(** * The playback clock *)

(** C4: the elapsed-position query never fails and returns, for every
    combination of the playing and paused flags and every position the
    mixer reports: the reported position in seconds when it is not
    negative; otherwise wall-clock now minus the play start reference while
    Playing, the frozen pause value while Paused, and 0 otherwise.  While
    the mixer has not been initialised it is not asked and the result is
    0.  The hypothesis is the program's invariant that the flag
    [pygame_initialized] is only set once the mixer is up. *)
Theorem C4_get_play_time_total (s : MusicPlayer) (w : World) :
  mixer_ready s w ->
  exists t, get_play_time s w = Ok t /\
    (pygame_initialized s = true ->
       ((0 <= get_pos w)%Z -> t = PyFloat.of_int (get_pos w) / 1000) /\
       ((get_pos w < 0)%Z ->
          (playing s = true -> paused s = false ->
           t = now w - start_time s) /\
          (paused s = true -> t = pause_offset s / 1000) /\
          (playing s = false -> paused s = false -> t = 0))) /\
    (pygame_initialized s = false -> t = 0).
Proof.
  unfold mixer_ready, get_play_time, music_get_pos. intros R.
  destruct (pygame_initialized s); cbn [negb].
  - rewrite R by reflexivity. cbn [bind].
    destruct (Z.geb_spec (get_pos w) 0) as [G|G].
    + eexists. split; [reflexivity|]. split; [|discriminate].
      intros _. split; [reflexivity|lia].
    + destruct (playing s), (paused s); cbn [andb negb];
        (eexists; split; [reflexivity|]; split; [|discriminate];
         intros _; split; [lia|]; intros _;
         repeat split; intros; try reflexivity; discriminate).
  - eexists. split; [reflexivity|]. split; [discriminate|reflexivity].
Qed.

(** A paused session whose mixer reports no position answers with the
    frozen pause value. *)
Lemma C4_witness :
  exists t,
    get_play_time (paused_session timeline8 "A") (report (-1)) = Ok t /\
    t = 1500 / 1000.
Proof.
  destruct (C4_get_play_time_total
              (paused_session timeline8 "A") (report (-1))
              (fun _ => eq_refl)) as (t & Ht & H & _).
  exists t. split; [exact Ht|].
  destruct (H eq_refl) as [_ K]. destruct (K eq_refl) as (_ & P & _).
  exact (P eq_refl).
Defined.

(** C5, as stated, does not hold: what the first tick after the restart
    presents follows from its own reading.  With the mixer at 150 ms the
    tick on a timeline with entries at 0 s and 0.2 s presents the second
    entry, not the first; and on a timeline whose first entry starts at
    5 s a first tick at reading 0 presents nothing. *)
Lemma C5_first_tick_follows_the_reading :
  (let s := session [(0, "A"); (0.2, "B")] "A" in
   exists s1 s2,
     stop s (report 4000) = Ok s1 /\
     play_pause s1 (report (-1)) = Ok s2 /\
     get_play_time s2 (report 150) = Ok 0.15 /\
     update_loop s2 (report 150) = Ok (set_lyric "B" s2, Some "B")) /\
  (let s := session [(5, "A")] "A" in
   exists s1 s2,
     stop s (report 4000) = Ok s1 /\
     play_pause s1 (report (-1)) = Ok s2 /\
     get_play_time s2 (report 0) = Ok 0 /\
     update_loop s2 (report 0) = Ok (s2, None)).
Proof.
  cbv zeta. split; do 2 eexists; repeat split.
Qed.

(** C5, amended: after [stop] the flags are cleared and the pause value is
    0, so the elapsed position reads 0 whatever the state before was (the
    halted mixer reports no position, a negative [get_pos]); the next
    [play] takes the instant of the call as start reference, so the
    session starts from elapsed 0 (a finite clock value minus itself).
    The first tick of the restarted session resolves its own reading, the
    mixer's report in seconds or the wall clock since the restart, and
    presents the entry at the resolved position whatever was presented
    before the stop: the first entry of the timeline when that entry has
    started by the reading plus tolerance, the entry behind it has not,
    and its caption is not empty; nothing while the first entry has not
    started. *)
Theorem C5_stop_then_play_restarts
  (s : MusicPlayer) (w0 w1 : World) :
  mixer_ready s w0 ->
  audio_path s <> None ->
  music_play w1 = Ok tt ->
  exists s1 s2,
    stop s w0 = Ok s1 /\
    playing s1 = false /\ paused s1 = false /\
    (forall w, mixer_ready s w -> (get_pos w < 0)%Z ->
               get_play_time s1 w = Ok 0) /\
    play_pause s1 w1 = Ok s2 /\
    playing s2 = true /\ paused s2 = false /\ lrc s2 = lrc s /\
    start_time s2 = now w1 /\
    (forall w, mixer_ready s w -> (get_pos w < 0)%Z ->
               now w = now w1 -> is_finite (now w1) = true ->
               get_play_time s2 w = Ok 0) /\
    (forall w2, mixer_ready s w2 ->
       exists t, get_play_time s2 w2 = Ok t /\
         (pygame_initialized s = true -> (0 <= get_pos w2)%Z ->
          t = PyFloat.of_int (get_pos w2) / 1000) /\
         (pygame_initialized s = true -> (get_pos w2 < 0)%Z ->
          t = now w2 - now w1) /\
         (pygame_initialized s = false -> t = 0) /\
         update_loop s2 w2
         = present s2 (entry_at (cursor (t + tolerance) (lrc s)) (lrc s)) /\
         (forall t0 x rest,
            lrc s = (t0, x) :: rest ->
            (t0 <=? t + tolerance)%float = true ->
            head_not_started (t + tolerance) rest -> x <> "" ->
            update_loop s2 w2 = Ok (set_lyric x s2, Some x)) /\
         (head_not_started (t + tolerance) (lrc s) ->
          update_loop s2 w2 = Ok (s2, None))).
Proof.
  intros R0 A P1.
  destruct (audio_path s) as [file|] eqn:EA; [clear A|congruence].
  unfold stop. assert (C0 : (if pygame_initialized s
                             then music_command w0 else Ok tt) = Ok tt).
  { unfold music_command. destruct (pygame_initialized s) eqn:I;
      [|reflexivity]. now rewrite (R0 I). }
  rewrite C0. cbn [bind]. eexists. eexists.
  split; [reflexivity|]. split; [reflexivity|]. split; [reflexivity|].
  split.
  { intros w R G. unfold get_play_time, music_get_pos.
    cbn [pygame_initialized playing paused andb negb].
    destruct (pygame_initialized s) eqn:I; [|reflexivity].
    cbn [negb]. rewrite (R I). cbn [bind].
    destruct (Z.geb_spec (get_pos w) 0); [lia|reflexivity]. }
  unfold play_pause. cbn [audio_path playing paused negb pause_offset].
  rewrite EA, P1.
  change (0 / 1000)%float with 0%float. rewrite sub_0_r.
  split; [reflexivity|].
  split; [reflexivity|]. split; [reflexivity|]. split; [reflexivity|].
  split; [reflexivity|].
  set (s2 := {| playing := true; paused := false; audio_path := Some file;
                lrc := lrc s; start_time := now w1; pause_offset := 0;
                pygame_initialized := pygame_initialized s;
                btn_play := "Pause"; lyric_var := "Playback stopped." |}).
  split.
  { intros w R G Nw F. unfold get_play_time, music_get_pos.
    cbn [s2 pygame_initialized playing paused andb negb start_time].
    destruct (pygame_initialized s) eqn:I; [|reflexivity].
    cbn [negb]. rewrite (R I). cbn [bind].
    destruct (Z.geb_spec (get_pos w) 0); [lia|].
    now rewrite Nw, sub_diag. }
  intros w2 R2.
  assert (T : exists t, get_play_time s2 w2 = Ok t /\
            (pygame_initialized s = true -> (0 <= get_pos w2)%Z ->
             t = PyFloat.of_int (get_pos w2) / 1000) /\
            (pygame_initialized s = true -> (get_pos w2 < 0)%Z ->
             t = now w2 - now w1) /\
            (pygame_initialized s = false -> t = 0)).
  { unfold get_play_time, music_get_pos.
    cbn [s2 pygame_initialized playing paused andb negb start_time].
    destruct (pygame_initialized s) eqn:I; cbn [negb].
    - rewrite (R2 I). cbn [bind].
      destruct (Z.geb_spec (get_pos w2) 0) as [G|G]; eexists;
        (split; [reflexivity|]);
        repeat split; intros; try reflexivity; try lia; discriminate.
    - eexists. split; [reflexivity|].
      repeat split; intros; try reflexivity; discriminate. }
  destruct T as (t & Ht & T1 & T2 & T3). exists t.
  split; [exact Ht|]. split; [exact T1|]. split; [exact T2|].
  split; [exact T3|].
  assert (U : update_loop s2 w2
              = present s2 (entry_at (cursor (t + tolerance) (lrc s))
                                     (lrc s))).
  { now apply (update_loop_present s2 w2 t). }
  split; [exact U|]. split.
  - intros t0 x rest L S0 N X. etransitivity; [exact U|].
    now apply (present_first s2 _ _ t0 x rest).
  - intros N. etransitivity; [exact U|].
    now rewrite (cursor_not_started _ _ N).
Qed.

(** Stop and restart of a session that already shows "A": a first tick
    with the mixer at 50 ms presents "A" again. *)
Lemma C5_witness :
  exists s1 s2,
    stop (session timeline8 "A") (report 4000) = Ok s1 /\
    play_pause s1 (report (-1)) = Ok s2 /\
    get_play_time s2 (report 50) = Ok 0.05 /\
    update_loop s2 (report 50) = Ok (set_lyric "A" s2, Some "A").
Proof.
  destruct (C5_stop_then_play_restarts
              (session timeline8 "A") (report 4000) (report (-1))
              (fun _ => eq_refl) ltac:(discriminate) eq_refl)
    as (s1 & s2 & H1 & _ & _ & _ & H2 & _ & _ & _ & _ & _ & H3).
  destruct (H3 (report 50) (fun _ => eq_refl))
    as (t & Ht & T & _ & _ & _ & H4 & _).
  assert (E : t = 0.05) by (rewrite (T eq_refl); [reflexivity|discriminate]).
  subst t. exists s1, s2.
  split; [exact H1|]. split; [exact H2|]. split; [exact Ht|].
  apply (H4 0 "A" [(2, "B"); (2, "C"); (5, "D")]);
    [reflexivity|reflexivity|reflexivity|discriminate].
Defined.

(** * The caption parser *)

(** C6 at the marker of the claim's example: the digits after the dot are
    read as a count of milliseconds, whatever their number, so "[1:02.5]"
    is given the offset 62.005 s and not 62.5 s. *)
Theorem C6_fraction_digits_read_as_milliseconds :
  exists q,
    parse_lrc (single_file "song.lrc" "[1:02.5]hello") "song.lrc"
    = Ok [(q, "hello")] /\
    q = 62.005 /\ (q =? 62.5)%float = false.
Proof.
  eexists. split; [vm_compute; reflexivity|]. split; reflexivity.
Qed.

(** C7 at the line of the claim's example: the first marker's last group
    takes the rest of the line, second marker included, and the search
    for further markers starts behind it; the line yields one entry. *)
Theorem C7_two_markers_yield_one_entry :
  exists q,
    parse_lrc (single_file "song.lrc" "[0:01][0:02]hello") "song.lrc"
    = Ok [(q, "[0:02]hello")] /\
    q = 1.
Proof. eexists. split; [vm_compute; reflexivity|reflexivity]. Qed.

(** C8: the timeline the parser returns has a non-decreasing sequence of
    offsets, holds the entries read from the source, and keeps entries of
    equal offset in the order in which the source gave them. *)
Theorem C8_timeline_sorted_stable
  (fs : filesystem) (path : string) (timeline : list entry) :
  parse_lrc fs path = Ok timeline ->
  nondecreasing timeline /\
  exists content entries,
    fs path = Some content /\ read_entries content = Ok entries /\
    Permutation entries timeline /\
    forall q, Sort.with_key start_offset q timeline
              = Sort.with_key start_offset q entries.
Proof.
  intros H. split; [now apply (parse_lrc_nondecreasing fs path)|].
  revert H. unfold parse_lrc.
  destruct (fs path) as [content|]; [|discriminate].
  destruct (read_entries content) as [entries|e] eqn:E; cbn [bind];
    [|discriminate].
  intros H. injection H as <-.
  exists content, entries.
  split; [reflexivity|]. split; [exact E|]. split.
  - apply sort_perm.
  - intros q. apply sort_with_key.
Qed.

(** Three lines out of order, two of them at 5 s. *)
Lemma C8_witness :
  exists timeline,
    parse_lrc (single_file "song.lrc"
                 ("[0:05]e" ++ String LF "[0:01]x" ++ String LF "[0:05]f"))
              "song.lrc" = Ok timeline /\
    map caption timeline = ["x"; "e"; "f"] /\
    nondecreasing timeline.
Proof.
  eexists. split; [vm_compute; reflexivity|]. split; [reflexivity|].
  apply (C8_timeline_sorted_stable
           (single_file "song.lrc"
              ("[0:05]e" ++ String LF "[0:01]x" ++ String LF "[0:05]f"))
           "song.lrc").
  vm_compute. reflexivity.
Defined.

(** C9 at a readable source: a marker whose fraction has 310 digits makes
    the conversion to float raise, and the parse is aborted. *)
Theorem C9_oversized_number_aborts_parse :
  parse_lrc (single_file "song.lrc" oversized_fraction) "song.lrc"
  = Raise OverflowError.
Proof. vm_compute. reflexivity. Qed.

(** C10: a tick never sets the display to the empty string.  While no
    entry has started, and when the last started entry has an empty
    caption (the parser produces one for a marker with nothing behind it),
    the tick makes no call to the sink, and a tick without a call leaves
    the object, the displayed text included, as it was. *)
Theorem C10_tick_never_presents_empty
  (s s' : MusicPlayer) (w : World) (em : option string) :
  update_loop s w = Ok (s', em) ->
  em <> Some "" /\
  (em = None -> s' = s) /\
  (forall t, get_play_time s w = Ok t ->
     (head_not_started (t + tolerance) (lrc s) -> em = None) /\
     (nondecreasing (lrc s) ->
      forall e, last_started (t + tolerance) (lrc s) = Some e ->
                caption e = "" -> em = None)) /\
  exists q,
    parse_lrc (single_file "song.lrc" "[0:01]") "song.lrc" = Ok [(q, "")].
Proof.
  intros H. apply update_loop_inv in H.
  destruct H as [(-> & -> & _)|(t & text & P & Ht & E & N & -> & ->)].
  - split; [discriminate|]. split; [reflexivity|].
    split; [now split|]. eexists. vm_compute. reflexivity.
  - split; [congruence|]. split; [discriminate|].
    split; [|eexists; vm_compute; reflexivity].
    intros t' Ht'. rewrite Ht in Ht'. injection Ht' as <-. split.
    + intros F. rewrite (scan_not_started _ _ _ F) in E. congruence.
    + intros S e He C. rewrite (scan_last_started _ _ _ S), He in E.
      congruence.
Qed.

(** A tick at 1 s on a timeline whose entry at 1 s has no caption. *)
Lemma C10_witness :
  update_loop (session [(0, "A"); (1, "")] "A") (report 1000)
  = Ok (session [(0, "A"); (1, "")] "A", None) /\
  None <> Some "".
Proof.
  split; [reflexivity|].
  apply (C10_tick_never_presents_empty
           (session [(0, "A"); (1, "")] "A")
           (session [(0, "A"); (1, "")] "A") (report 1000) None eq_refl).
Defined.

End Spec.

(** * Further properties of the parser *)

(** ** What a caller of [parse_lrc] can rely on *)

Module ParserProps.
Import Text Re Lrc Shape Player.
Import ReFacts TextFacts FloatFacts SortFacts LrcFacts StripFacts.
Import MarkerFacts TimelineFacts.

Local Open Scope string_scope.

(** X1: every entry of a timeline that [parse_lrc] returns has an offset
    that is not negative and a caption without white space at either
    end. *)
Theorem parse_lrc_entries_ok
  (fs : filesystem) (path : string) (timeline : list entry) :
  parse_lrc fs path = Ok timeline -> Forall entry_ok timeline.
Proof. apply parse_lrc_Forall_entry_ok. Qed.

Lemma parse_lrc_entries_ok_witness :
  exists timeline,
    parse_lrc (single_file "song.lrc" "[0:07.250]   la la  ") "song.lrc"
    = Ok timeline /\ Forall entry_ok timeline.
Proof.
  eexists. split; [vm_compute; reflexivity|].
  apply (parse_lrc_entries_ok
           (single_file "song.lrc" "[0:07.250]   la la  ") "song.lrc").
  vm_compute. reflexivity.
Defined.

(** X2: a timeline never has more entries than the source has lines:
    whatever a line holds, it adds one entry at most. *)
Theorem parse_lrc_one_entry_per_line
  (fs : filesystem) (path content : string) (timeline : list entry) :
  fs path = Some content -> parse_lrc fs path = Ok timeline ->
  (List.length timeline <= List.length (lines content))%nat.
Proof.
  intros R. unfold parse_lrc. rewrite R.
  destruct (read_entries content) as [es|x] eqn:E; cbn [bind];
    [|discriminate].
  intros H. injection H as <-.
  rewrite <- (Permutation_length (sort_perm start_offset es)).
  now apply read_entries_length.
Qed.

Lemma parse_lrc_one_entry_per_line_witness :
  exists timeline,
    parse_lrc (single_file "song.lrc" "[0:01]a[0:02]b[0:03]c") "song.lrc"
    = Ok timeline /\ (List.length timeline <= 1)%nat.
Proof.
  eexists. split; [vm_compute; reflexivity|].
  apply (parse_lrc_one_entry_per_line
           (single_file "song.lrc" "[0:01]a[0:02]b[0:03]c") "song.lrc"
           "[0:01]a[0:02]b[0:03]c"); vm_compute; reflexivity.
Defined.

Lemma marker_line_length (mm ss : chars) (frac : option chars)
  (text : chars) :
  List.length (marker_line mm ss frac text)
  = (3 + List.length mm + List.length ss + List.length text
     + match frac with Some ds => 1 + List.length ds | None => 0 end)%nat.
Proof.
  unfold marker_line. destruct frac as [ds|]; simpl;
    repeat (rewrite length_app; simpl); lia.
Qed.

(** The numbers of a marker found in a text of at most 300 characters
    are accepted by [int] and fit a float. *)
Lemma short_text_in_range (s : chars) (m : lrc_match) :
  (List.length s <= 300)%nat -> In m (finditer s) ->
  within_limit m /\ in_range m.
Proof.
  intros L I. destruct (finditer_from_shape _ _ _ I) as (D & pre & rest & E).
  assert (B : (List.length (group1 m) + List.length (group2 m) +
               match group3 m with
               | Some ds => List.length ds | None => 0 end <= 297)%nat).
  { rewrite E, length_app, marker_line_length in L.
    destruct (group3 m); lia. }
  destruct D as (D1 & D2 & D3). split.
  { unfold within_limit, max_str_digits. split; [lia|]. split; [lia|].
    intros ds G. rewrite G in B. lia. }
  assert (T : (10 ^ 300 < float_limit)%Z) by reflexivity.
  assert (M : forall ds, Forall (fun c => is_digit c = true) ds ->
              (List.length ds <= 297)%nat ->
              (0 <= value ds < 10 ^ 297)%Z).
  { intros ds F Ld. pose proof (value_range ds F) as R.
    split; [lia|]. eapply Z.lt_le_trans; [apply R|].
    apply Z.pow_le_mono_r; lia. }
  assert (P : (61 * 10 ^ 297 < 10 ^ 300)%Z) by reflexivity.
  unfold in_range, minutes, seconds, fraction. split.
  - destruct (group3 m) as [ds|]; [|reflexivity].
    pose proof (M ds (D3 ds eq_refl) ltac:(lia)). lia.
  - pose proof (M _ D1 ltac:(lia)). pose proof (M _ D2 ltac:(lia)). lia.
Qed.

(** X3: a readable source whose lines have at most 300 characters is
    always parsed to a timeline: no exception, whatever the lines hold. *)
Theorem parse_lrc_short_lines_return
  (fs : filesystem) (path content : string) :
  fs path = Some content ->
  Forall (fun l => (List.length l <= 300)%nat) (lines content) ->
  exists timeline, parse_lrc fs path = Ok timeline.
Proof.
  intros R F. apply (parse_lrc_returns fs path content R).
  revert F. apply Forall_impl. intros l L.
  apply Forall_forall. intros m I.
  apply (short_text_in_range (strip l)); [|exact I].
  etransitivity; [apply length_strip|exact L].
Qed.

Lemma parse_lrc_short_lines_return_witness :
  exists timeline,
    parse_lrc (single_file "song.lrc" "[ar:somebody][12:34.56]x]][")
              "song.lrc" = Ok timeline.
Proof.
  apply (parse_lrc_short_lines_return
           (single_file "song.lrc" "[ar:somebody][12:34.56]x]][")
           "song.lrc" "[ar:somebody][12:34.56]x]][");
    [reflexivity|].
  repeat constructor.
Defined.

(** X4: when the markers of the source already come in non-decreasing
    order of time, the timeline is the entries in the order of the
    source: sorting moves nothing. *)
Theorem parse_lrc_keeps_ordered_source
  (fs : filesystem) (path content : string) (entries : list entry) :
  fs path = Some content -> read_entries content = Ok entries ->
  nondecreasing entries -> parse_lrc fs path = Ok entries.
Proof.
  intros R E S. unfold parse_lrc. rewrite R, E. cbn [bind].
  now rewrite (sort_sorted_id _ _ S).
Qed.

Lemma parse_lrc_keeps_ordered_source_witness :
  parse_lrc (single_file "song.lrc"
               ("[0:01]one" ++ String LF "[0:01]two" ++ String LF "[0:03]x"))
            "song.lrc"
  = Ok [(1, "one"); (1, "two"); (3, "x")]%float.
Proof.
  apply (parse_lrc_keeps_ordered_source
           (single_file "song.lrc"
              ("[0:01]one" ++ String LF "[0:01]two" ++ String LF "[0:03]x"))
           "song.lrc"
           ("[0:01]one" ++ String LF "[0:01]two" ++ String LF "[0:03]x"));
    [reflexivity|vm_compute; reflexivity|].
  unfold nondecreasing. repeat first [reflexivity | constructor].
Defined.

(** X5: an unreadable source makes [parse_lrc] raise [OSError], and a
    readable one never does. *)
Theorem parse_lrc_oserror_iff_unreadable (fs : filesystem) (path : string) :
  parse_lrc fs path = Raise OSError <-> fs path = None.
Proof.
  split.
  - intros H. apply parse_lrc_raise in H.
    destruct H as [[_ N]|(c & _ & X)]; [exact N|].
    apply Exists_exists in X. destruct X as (l & _ & X).
    apply Exists_exists in X. destruct X as (m & _ & [[D _]|[D _]]);
      discriminate.
  - intros N. unfold parse_lrc. now rewrite N.
Qed.

Lemma iter_lines_single (s cur : chars) :
  ~ In LF s -> ~ In CR s -> (cur ++ s)%list <> [] ->
  iter_lines cur s = [(rev cur ++ s)%list].
Proof.
  revert cur. induction s as [|c s IH]; intros cur NL NC NE.
  - rewrite app_nil_r in *. simpl. now destruct cur.
  - cbn [iter_lines].
    assert (E1 : Ascii.eqb c LF = false).
    { apply Ascii.eqb_neq. intros ->. apply NL. now left. }
    assert (E2 : Ascii.eqb c CR = false).
    { apply Ascii.eqb_neq. intros ->. apply NC. now left. }
    rewrite E1, E2, IH.
    + simpl. now rewrite <- app_assoc.
    + intros I. apply NL. now right.
    + intros I. apply NC. now right.
    + discriminate.
Qed.

Lemma digits_exclude (ds : chars) (c : ascii) :
  Forall (fun d => is_digit d = true) ds -> is_digit c = false ->
  ~ In c ds.
Proof.
  intros F N I. rewrite Forall_forall in F. apply F in I. congruence.
Qed.

(** A marker line is its marker up to the closing bracket, then the
    text. *)
Lemma marker_line_split (mm ss : chars) (frac : option chars) :
  exists head, forall text,
    marker_line mm ss frac text
    = ("["%char :: head ++ "]"%char :: text)%list.
Proof.
  unfold marker_line. destruct frac as [ds|].
  - exists (mm ++ ":"%char :: ss ++ "."%char :: ds)%list. intros text.
    rewrite <- !app_assoc. simpl. rewrite <- !app_assoc. reflexivity.
  - exists (mm ++ ":"%char :: ss)%list. intros text.
    rewrite <- !app_assoc. reflexivity.
Qed.

Lemma marker_line_no (c : ascii) (mm ss : chars) (frac : option chars)
  (text : chars) :
  is_digit c = false ->
  c <> "["%char -> c <> ":"%char -> c <> "."%char -> c <> "]"%char ->
  Forall (fun d => is_digit d = true) mm ->
  Forall (fun d => is_digit d = true) ss ->
  (forall ds, frac = Some ds -> Forall (fun d => is_digit d = true) ds) ->
  ~ In c text -> ~ In c (marker_line mm ss frac text).
Proof.
  intros N N1 N2 N3 N4 Fm Fs Ff Nt. unfold marker_line.
  pose proof (digits_exclude mm c Fm N) as Im.
  pose proof (digits_exclude ss c Fs N) as Is.
  intros [E|I]; [congruence|]. apply in_app_or in I.
  destruct I as [I|[E|I]]; [tauto|congruence|].
  apply in_app_or in I. destruct I as [I|I]; [tauto|].
  destruct frac as [ds|].
  - pose proof (digits_exclude ds c (Ff ds eq_refl) N) as Id.
    destruct I as [E|I]; [congruence|]. apply in_app_or in I.
    destruct I as [I|[E|I]]; [tauto|congruence|tauto].
  - destruct I as [E|I]; [congruence|tauto].
Qed.

(** [line.strip()] on a marker line only touches the end of its text. *)
Lemma strip_marker_line (mm ss : chars) (frac : option chars)
  (text : chars) :
  strip (marker_line mm ss frac text)
  = marker_line mm ss frac (rstrip text).
Proof.
  destruct (marker_line_split mm ss frac) as [head H].
  rewrite !H. unfold strip. cbn [lstrip].
  change (is_space "[") with false. cbn iota.
  change ("["%char :: head ++ "]"%char :: text)%list
    with (("["%char :: head) ++ "]"%char :: text)%list.
  now rewrite (rstrip_app_nonspace _ _ "]").
Qed.

(** A source of one marker line is parsed by one run of the loop body,
    on the match that has the whole text as its last group. *)
Lemma parse_lrc_one_marker
  (name : string) (mm ss : chars) (frac : option chars) (text : chars) :
  mm <> [] -> Forall (fun c => is_digit c = true) mm ->
  ss <> [] -> Forall (fun c => is_digit c = true) ss ->
  (forall ds, frac = Some ds ->
     ds <> [] /\ Forall (fun c => is_digit c = true) ds) ->
  ~ In LF text -> ~ In CR text ->
  parse_lrc
    (single_file name (string_of_list_ascii (marker_line mm ss frac text)))
    name
  = (e <- entry_of_match (mk_match mm ss frac (rstrip text)) ;; Ok [e]).
Proof.
  intros Em Fm Es Fs Hf NL NC.
  assert (Ff : forall ds, frac = Some ds ->
                 Forall (fun c => is_digit c = true) ds)
    by (intros ds E; now apply Hf).
  unfold parse_lrc, single_file. rewrite String.eqb_refl.
  unfold read_entries, lines.
  rewrite list_ascii_of_string_of_list_ascii.
  rewrite iter_lines_single.
  - cbn [rev app parse_lines parse_line].
    unfold parse_line. rewrite strip_marker_line.
    rewrite finditer_marker_line; try assumption.
    + cbn [append_matches].
      destruct (entry_of_match _) as [e|x]; reflexivity.
    + intros I. apply NL. now apply In_rstrip.
  - apply marker_line_no; try assumption; try reflexivity; discriminate.
  - apply marker_line_no; try assumption; try reflexivity; discriminate.
  - unfold marker_line. discriminate.
Qed.

(** X6: a source that consists of one well-formed marker line,
    [[mm:ss]text] or [[mm:ss.frac]text], parses to exactly one entry
    when no field has more than 4300 digits and the numbers fit a float:
    its offset is the double [mm*60 + ss + frac/1000.0], with the digits
    of [frac] read as an integer, and its caption is the stripped text.
    With a field of more than 4300 digits the parse raises [ValueError];
    otherwise, with a number too large for a float, [OverflowError]. *)
Theorem parse_lrc_marker_line
  (name : string) (mm ss : chars) (frac : option chars) (text : chars) :
  mm <> [] -> Forall (fun c => is_digit c = true) mm ->
  ss <> [] -> Forall (fun c => is_digit c = true) ss ->
  (forall ds, frac = Some ds ->
     ds <> [] /\ Forall (fun c => is_digit c = true) ds) ->
  ~ In LF text -> ~ In CR text ->
  let m := mk_match mm ss frac text in
  let source :=
    single_file name (string_of_list_ascii (marker_line mm ss frac text)) in
  (within_limit m -> in_range m ->
   parse_lrc source name
   = Ok [((PyFloat.of_int (value mm * 60 + value ss) +
           PyFloat.of_int
             (match frac with Some ds => value ds | None => 0%Z end)
           / 1000)%float,
          string_of_list_ascii (strip text))]) /\
  (~ within_limit m -> parse_lrc source name = Raise ValueError) /\
  (within_limit m -> ~ in_range m ->
   parse_lrc source name = Raise OverflowError).
Proof.
  intros Em Fm Es Fs Hf NL NC. cbv zeta.
  rewrite (parse_lrc_one_marker name mm ss frac text Em Fm Es Fs Hf NL NC).
  split; [|split].
  - intros W R.
    assert (W' : within_limit (mk_match mm ss frac (rstrip text)))
      by exact W.
    assert (R' : in_range (mk_match mm ss frac (rstrip text))) by exact R.
    rewrite (entry_of_match_ok _ W' R'). cbn [bind].
    unfold offset_of, minutes, seconds, fraction.
    cbn [group1 group2 group3 group4].
    now rewrite strip_rstrip.
  - intros W.
    assert (W' : ~ within_limit (mk_match mm ss frac (rstrip text)))
      by exact W.
    now rewrite (entry_of_match_value_error _ W').
  - intros W R.
    assert (W' : within_limit (mk_match mm ss frac (rstrip text)))
      by exact W.
    assert (R' : ~ in_range (mk_match mm ss frac (rstrip text)))
      by exact R.
    now rewrite (entry_of_match_overflow _ W' R').
Qed.

Lemma parse_lrc_marker_line_witness :
  parse_lrc (single_file "song.lrc" "[03:25.40]  Hello there ") "song.lrc"
  = Ok [(205.04%float, "Hello there")].
Proof.
  destruct (parse_lrc_marker_line "song.lrc"
              (list_ascii_of_string "03") (list_ascii_of_string "25")
              (Some (list_ascii_of_string "40"))
              (list_ascii_of_string "  Hello there ")) as [H _].
  - discriminate.
  - repeat constructor.
  - discriminate.
  - repeat constructor.
  - intros ds H. injection H as <-. split; [discriminate|].
    repeat constructor.
  - intros I. repeat (destruct I as [I|I]; [discriminate|]). exact I.
  - intros I. repeat (destruct I as [I|I]; [discriminate|]). exact I.
  - apply H.
    + split; [|split]; try (vm_compute; discriminate).
      intros ds D. injection D as <-. vm_compute. discriminate.
    + split; reflexivity.
Defined.

(** A marker whose seconds are written with 4301 digits, 4300 zeros and a
    one: [int] refuses the text, and the parse is aborted. *)
Lemma long_field_aborts_parse :
  parse_lrc
    (single_file "song.lrc"
       ("[0:" ++ string_of_list_ascii (repeat "0"%char 4300) ++ "1]x"))
    "song.lrc"
  = Raise ValueError.
Proof. vm_compute. reflexivity. Qed.

End ParserProps.

(** * The session: load, transport, ticks *)

Module SessionFacts.
Import Text Lrc Player Path Session Shape.
Import SortFacts LrcFacts PlayerFacts TimelineFacts ParserProps.

Local Open Scope string_scope.

Lemma consistent_start : consistent start.
Proof.
  constructor; cbn; try discriminate; try reflexivity; try congruence;
    constructor.
Qed.

Lemma ensure_pygame_consistent (a a1 : App) (e : LoadEnv) (ok : bool) :
  consistent a -> ensure_pygame a e = (a1, ok) ->
  consistent a1 /\
  (ok = true -> pygame_initialized (player a1) = true) /\
  (ok = false -> a1 = a).
Proof.
  intros C. unfold ensure_pygame.
  destruct (pygame_initialized (player a)) eqn:I.
  - intros H. injection H as <- <-.
    split; [exact C|]. split; [intros _; exact I|discriminate].
  - destruct (pygame_present e); cbn [negb].
    + destruct (mixer_init_ok e).
      * intros H. injection H as <- <-.
        split; [|split; [reflexivity|discriminate]].
        destruct C. constructor; cbn; try assumption; try reflexivity.
      * intros H. injection H as <- <-.
        split; [exact C|]. split; [discriminate|reflexivity].
    + intros H. injection H as <- <-.
      split; [exact C|]. split; [discriminate|reflexivity].
Qed.

Lemma load_lyrics_consistent (a a' : App) (e : LoadEnv) (path : string)
  (x : option exn) :
  consistent a -> load_lyrics a e path = (a', x) -> consistent a'.
Proof.
  intros C. unfold load_lyrics.
  destruct (parse_lrc (files e) path) as [entries|y] eqn:P.
  - intros H. injection H as <- <-. destruct C.
    constructor; cbn; try assumption; try discriminate; try reflexivity.
    + now apply (parse_lrc_nondecreasing _ _ _ P).
    + now apply (parse_lrc_Forall_entry_ok _ _ _ P).
  - intros H. now injection H as <- <-.
Qed.

Lemma load_consistent (a a' : App) (e : LoadEnv) (x : option exn) :
  consistent a -> load a e = (a', x) -> consistent a'.
Proof.
  intros C. unfold load.
  destruct (ensure_pygame a e) as [a1 ok] eqn:E.
  destruct (ensure_pygame_consistent _ _ _ _ C E) as (C1 & I1 & _).
  destruct ok; cbn [negb].
  - destruct (truthy (chosen_audio e)); cbn [negb].
    + specialize (I1 eq_refl).
      assert (C2 : consistent
                     (mk_app (set_audio_path (chosen_audio e) (player a1))
                             (mixer_up a1))).
      { destruct C1. constructor; cbn; try assumption; try reflexivity.
        - intros _. exact I1.
        - discriminate. }
      cbn [mixer_up].
      destruct (mixer_up a1 && music_load_ok e)%bool; cbn [negb].
      * destruct (path_exists e _).
        -- now apply load_lyrics_consistent.
        -- destruct (wants_lyrics e && truthy (chosen_lrc e))%bool.
           ++ now apply load_lyrics_consistent.
           ++ intros H. injection H as <- <-. destruct C2.
              constructor; cbn in *; try assumption; try discriminate;
                reflexivity.
      * intros H. now injection H as <- <-.
    + intros H. now injection H as <- <-.
  - intros H. now injection H as <- <-.
Qed.

(** In a consistent state the transport commands find the mixer up. *)
Lemma consistent_mixer_ready (a : App) (w : World) :
  consistent a -> mixer_ready (player a) (at_mixer (mixer_up a) w).
Proof. intros C I. cbn. now apply (c_mixer a C). Qed.

Lemma play_pause_ok (a : App) (w : World) :
  consistent a ->
  exists s, play_pause (player a) (at_mixer (mixer_up a) w) = Ok s.
Proof.
  intros C. unfold play_pause.
  destruct (audio_path (player a)) as [file|] eqn:A; [|now eexists].
  assert (U : mixer_up a = true).
  { apply (c_mixer a C), (c_loaded a C). congruence. }
  destruct (negb (playing (player a))).
  - destruct (music_play _); now eexists.
  - unfold music_command, music_get_pos. cbn [mixer_init at_mixer].
    rewrite U. cbn [bind].
    destruct (negb (paused (player a))); now eexists.
Qed.

Lemma stop_ok (a : App) (w : World) :
  consistent a -> exists s, stop (player a) (at_mixer (mixer_up a) w) = Ok s.
Proof.
  intros C. unfold stop, music_command. cbn [mixer_init at_mixer].
  destruct (pygame_initialized (player a)) eqn:I; [|now eexists].
  rewrite (c_mixer a C I). now eexists.
Qed.

Lemma play_pause_consistent (a : App) (w : World) (s : MusicPlayer) :
  consistent a ->
  play_pause (player a) (at_mixer (mixer_up a) w) = Ok s ->
  consistent (mk_app s (mixer_up a)).
Proof.
  intros C. unfold play_pause.
  destruct (audio_path (player a)) as [file|] eqn:A;
    [|intros H; injection H as <-; now destruct a].
  assert (I : pygame_initialized (player a) = true).
  { apply (c_loaded a C). congruence. }
  pose proof (c_mixer a C) as HM. pose proof (c_sorted a C) as HS.
  pose proof (c_entries a C) as HE.
  assert (F : forall s',
            audio_path s' = Some file -> lrc s' = lrc (player a) ->
            pygame_initialized s' = pygame_initialized (player a) ->
            playing s' = true -> btn_play s' = button_for s' ->
            consistent (mk_app s' (mixer_up a))).
  { intros s' E1 E2 E3 E4 E5.
    constructor; cbn; rewrite ?E1, ?E2, ?E3; try assumption;
      try discriminate; auto. }
  destruct (playing (player a)) eqn:P; cbn [negb].
  - destruct (paused (player a)) eqn:Q; cbn [negb].
    + destruct (music_command _); cbn [bind]; [|discriminate].
      intros H. injection H as <-. now apply F.
    + destruct (music_command _); cbn [bind]; [|discriminate].
      destruct (music_get_pos _); cbn [bind]; [|discriminate].
      intros H. injection H as <-. now apply F.
  - destruct (music_play _).
    + intros H. injection H as <-. now apply F.
    + intros H. injection H as <-. now destruct a.
Qed.

Lemma stop_consistent (a : App) (w : World) (s : MusicPlayer) :
  consistent a ->
  stop (player a) (at_mixer (mixer_up a) w) = Ok s ->
  consistent (mk_app s (mixer_up a)).
Proof.
  intros C. unfold stop.
  destruct (if pygame_initialized (player a) then _ else _); cbn [bind];
    [|discriminate].
  intros H. injection H as <-. destruct C.
  constructor; cbn; try assumption; try reflexivity; discriminate.
Qed.

Lemma tick_consistent (a : App) (w : World) (s : MusicPlayer)
  (em : option string) :
  consistent a ->
  update_loop (player a) (at_mixer (mixer_up a) w) = Ok (s, em) ->
  consistent (mk_app s (mixer_up a)).
Proof.
  intros C H. apply update_loop_inv in H.
  destruct H as [(-> & _)|(t & text & _ & _ & _ & _ & -> & _)].
  - now destruct a.
  - destruct C. constructor; cbn; assumption.
Qed.

Lemma step_consistent (a : App) (c : command) :
  consistent a -> consistent (fst (step a c)).
Proof.
  intros C. destruct c as [e|w|w|w]; cbn [step].
  - destruct (load a e) as [a' x] eqn:L. now apply (load_consistent a a' e x).
  - destruct (play_pause _ _) as [s|x] eqn:E; cbn; [|exact C].
    now apply (play_pause_consistent a w).
  - destruct (stop _ _) as [s|x] eqn:E; cbn; [|exact C].
    now apply (stop_consistent a w).
  - destruct (update_loop _ _) as [[s em]|x] eqn:E; cbn; [|exact C].
    now apply (tick_consistent a w s em).
Qed.

Lemma run_consistent (a : App) (cs : list command) :
  consistent a -> consistent (run a cs).
Proof.
  revert a. induction cs as [|c cs IH]; intros a C; [exact C|].
  cbn [run]. apply IH. now apply step_consistent.
Qed.

End SessionFacts.

(** ** What holds throughout a session *)

Module SessionProps.
Import Text Lrc Player Path Session Shape Examples.
Import SortFacts LrcFacts PlayerFacts TimelineFacts ParserProps SessionFacts.

Local Open Scope float_scope.
Local Open Scope string_scope.

(** X7: whatever the user does after the program has started (loading,
    play/pause, stop, in any order, with ticks in between), the object is
    never paused without playing, and never playing without a loaded file
    and an initialised mixer. *)
Theorem session_flags (cs : list command) :
  let s := player (run start cs) in
  (paused s = true -> playing s = true) /\
  (playing s = true ->
   audio_path s <> None /\ pygame_initialized s = true).
Proof.
  pose proof (run_consistent start cs consistent_start) as C.
  cbv zeta. split; [apply (c_paused _ C)|].
  intros P. pose proof (c_playing _ C P) as A.
  split; [exact A|]. now apply (c_loaded _ C).
Qed.

(** X8: throughout a session the timeline held by the object is ordered
    by offset, with offsets that are not negative and stripped captions:
    it is empty or came out of [parse_lrc], and nothing else writes it. *)
Theorem session_timeline_ordered (cs : list command) :
  nondecreasing (lrc (player (run start cs))) /\
  Forall entry_ok (lrc (player (run start cs))).
Proof.
  pose proof (run_consistent start cs consistent_start) as C.
  split; [apply (c_sorted _ C)|apply (c_entries _ C)].
Qed.

(** X9: throughout a session the label of the Play button tells the
    state: "Play" when nothing plays, "Pause" while playing, "Resume"
    while paused. *)
Theorem session_button_label (cs : list command) :
  btn_play (player (run start cs)) = button_for (player (run start cs)).
Proof.
  apply (c_button _ (run_consistent start cs consistent_start)).
Qed.

(** X10: at no point of a session does play/pause, stop or a tick end
    with an exception: the mixer calls they make are only reached once
    the mixer is up. *)
Theorem session_transport_never_raises (cs : list command) (w : World) :
  snd (step (run start cs) (PlayPause w)) = None /\
  snd (step (run start cs) (Stop w)) = None /\
  snd (step (run start cs) (Tick w)) = None.
Proof.
  pose proof (run_consistent start cs consistent_start) as C.
  cbn [step]. split; [|split].
  - destruct (play_pause_ok _ w C) as [s ->]. reflexivity.
  - destruct (stop_ok _ w C) as [s ->]. reflexivity.
  - destruct (update_loop_ok _ _ (consistent_mixer_ready _ w C))
      as (s & em & ->). reflexivity.
Qed.

(** X11: pausing freezes the position at what the mixer reports at that
    moment: while paused, the query returns that report in seconds when
    the mixer reports no position.  Resuming moves the start reference to
    the instant of the resume minus the frozen position, so that the wall
    clock takes up from there: afterwards the query returns the clock
    minus that reference, computed in doubles, unless the mixer reports a
    position, which has precedence.  At the magnitude of [time.time()]
    the subtraction rounds: the position read back at the instant of the
    resume is close to the frozen one, not equal to it. *)
Theorem pause_resume_keeps_position (s : MusicPlayer) (w1 w2 : World) :
  audio_path s <> None -> pygame_initialized s = true ->
  playing s = true -> paused s = false ->
  mixer_init w1 = true -> mixer_init w2 = true ->
  exists s1 s2,
    play_pause s w1 = Ok s1 /\ play_pause s1 w2 = Ok s2 /\
    playing s1 = true /\ paused s1 = true /\
    playing s2 = true /\ paused s2 = false /\
    (forall w, mixer_init w = true -> (get_pos w < 0)%Z ->
       get_play_time s1 w = Ok (PyFloat.of_int (get_pos w1) / 1000)) /\
    start_time s2 = now w2 - PyFloat.of_int (get_pos w1) / 1000 /\
    (forall w, mixer_init w = true -> (get_pos w < 0)%Z ->
       get_play_time s2 w
       = Ok (now w - (now w2 - PyFloat.of_int (get_pos w1) / 1000))) /\
    (forall w, mixer_init w = true -> (0 <= get_pos w)%Z ->
       get_play_time s2 w = Ok (PyFloat.of_int (get_pos w) / 1000)).
Proof.
  intros A I P Q M1 M2. unfold play_pause.
  destruct (audio_path s) as [file|] eqn:EA; [clear A|congruence].
  rewrite P, Q. cbn [negb]. unfold music_command, music_get_pos.
  rewrite M1. cbn [bind audio_path playing paused negb].
  rewrite M2. cbn [bind]. do 2 eexists.
  split; [reflexivity|]. split; [reflexivity|].
  repeat (split; [reflexivity|]).
  split; [|split; [reflexivity|split]].
  - intros w M G. unfold get_play_time, music_get_pos.
    cbn [pygame_initialized playing paused pause_offset andb negb].
    rewrite I, M. cbn [negb bind].
    destruct (Z.geb_spec (get_pos w) 0); [lia|]. reflexivity.
  - intros w M G. unfold get_play_time, music_get_pos.
    cbn [pygame_initialized playing paused start_time pause_offset
         andb negb].
    rewrite I, M. cbn [negb bind].
    destruct (Z.geb_spec (get_pos w) 0); [lia|]. reflexivity.
  - intros w M G. unfold get_play_time, music_get_pos.
    cbn [pygame_initialized playing paused start_time pause_offset
         andb negb].
    rewrite I, M. cbn [negb bind].
    destruct (Z.geb_spec (get_pos w) 0); [reflexivity|lia].
Qed.

(** Pause at 1234 ms, resume when the clock reads 1.7e9 s: at that
    instant the wall clock gives 1.2339999675750732 s. *)
Lemma pause_resume_keeps_position_witness :
  exists s1 s2,
    play_pause (session timeline8 "A") (report 1234) = Ok s1 /\
    play_pause s1 (mk_world 1700000000 true 1234 true) = Ok s2 /\
    get_play_time s1 (report (-1)) = Ok 1.234 /\
    get_play_time s2 (mk_world 1700000000 true (-1) true)
    = Ok 1.2339999675750732 /\
    (1.2339999675750732 <? 1.234)%float = true.
Proof.
  destruct (pause_resume_keeps_position
              (session timeline8 "A") (report 1234)
              (mk_world 1700000000 true 1234 true))
    as (s1 & s2 & H1 & H2 & _ & _ & _ & _ & H3 & _ & H4 & _);
    try reflexivity; try discriminate.
  exists s1, s2. split; [exact H1|]. split; [exact H2|].
  split; [|split; [|reflexivity]].
  - rewrite (H3 (report (-1))); reflexivity.
  - rewrite (H4 (mk_world 1700000000 true (-1) true)); reflexivity.
Defined.

Lemma run_ticks_stopped (s : MusicPlayer) (ws : list World) :
  playing s = false -> paused s = false ->
  run_ticks s ws = Ok (s, map (fun _ => None) ws).
Proof.
  intros P Q. induction ws as [|w ws IH]; [reflexivity|].
  cbn [run_ticks map]. rewrite (update_loop_stopped s w P Q).
  cbn [bind fst snd]. now rewrite IH.
Qed.

(** X12: once [stop] has returned, ticks change nothing and present
    nothing, however many fire: the display stays on
    "Playback stopped.". *)
Theorem stop_then_ticks_idle
  (s s1 : MusicPlayer) (w : World) (ws : list World) :
  stop s w = Ok s1 ->
  run_ticks s1 ws = Ok (s1, map (fun _ => None) ws) /\
  lyric_var s1 = "Playback stopped.".
Proof.
  unfold stop.
  destruct (if pygame_initialized s then _ else _); cbn [bind];
    [|discriminate].
  intros H. injection H as <-.
  split; [now apply run_ticks_stopped|reflexivity].
Qed.

Lemma stop_then_ticks_idle_witness :
  exists s1,
    stop (session timeline8 "C") (report 2500) = Ok s1 /\
    run_ticks s1 (map report [2600; 2800; 3000]%Z)
    = Ok (s1, [None; None; None]).
Proof.
  eexists. split; [reflexivity|].
  apply (stop_then_ticks_idle (session timeline8 "C") _ (report 2500)
           (map report [2600; 2800; 3000]%Z) eq_refl).
Defined.

Lemma scan_in (bound : float) (l : list entry) (text : string) :
  scan bound l text = text \/ In (scan bound l text) (map caption l).
Proof.
  revert text. induction l as [|[time_s lyric] l IH]; intros text;
    [now left|].
  cbn [scan map]. destruct (time_s <=? bound)%float; [|now left].
  right. destruct (IH lyric) as [->|I]; [now left|now right].
Qed.

(** X13: ticks write the display and nothing else, and whatever a tick
    presents is a non-empty caption of the timeline: after any number of
    ticks the object differs from the one before in [lyric_var] at most,
    and every text handed to the sink occurs in the timeline. *)
Theorem ticks_present_captions_only
  (s s' : MusicPlayer) (ws : list World) (ems : list (option string)) :
  run_ticks s ws = Ok (s', ems) ->
  s' = set_lyric (lyric_var s') s /\
  List.length ems = List.length ws /\
  forall x, In (Some x) ems -> x <> "" /\ In x (map caption (lrc s)).
Proof.
  revert s s' ems. induction ws as [|w ws IH]; intros s s' ems.
  - cbn. intros H. injection H as <- <-.
    split; [now destruct s|]. split; [reflexivity|]. intros x [].
  - cbn [run_ticks].
    destruct (update_loop s w) as [[s1 em]|e] eqn:U; cbn [bind fst snd];
      [|discriminate].
    destruct (run_ticks s1 ws) as [[s2 ems']|e] eqn:R; cbn [bind fst snd];
      [|discriminate].
    intros H. injection H as <- <-.
    destruct (IH _ _ _ R) as (E & L & F).
    apply update_loop_inv in U.
    destruct U as [(-> & -> & _)|(t & text & _ & _ & X & N & -> & ->)].
    + split; [exact E|]. split; [cbn; now rewrite L|].
      intros x [D|I]; [discriminate|now apply F].
    + split; [rewrite E at 1; reflexivity|]. split; [cbn; now rewrite L|].
      intros x [D|I].
      * injection D as <-. split; [exact N|].
        destruct (scan_in (t + tolerance) (lrc s) "") as [Z|I];
          [congruence|now rewrite X].
      * now apply F.
Qed.

Lemma ticks_present_captions_only_witness :
  exists s' ems,
    run_ticks (session timeline8 "") readings8 = Ok (s', ems) /\
    s' = set_lyric (lyric_var s') (session timeline8 "") /\
    List.length ems = 5%nat.
Proof.
  do 2 eexists. split; [reflexivity|].
  destruct (ticks_present_captions_only
              (session timeline8 "") _ readings8 _ eq_refl) as (E & L & _).
  split; [exact E|exact L].
Defined.

(** X14: [load] only replaces the timeline when a lyric file is read.
    When the new audio file has no [.lrc] beside it and the user picks
    none, the timeline of the file loaded before stays in place, while
    the path is the new one and the transport is reset. *)
Theorem load_without_lyrics_keeps_timeline (a : App) (e : LoadEnv) :
  pygame_initialized (player a) = true -> mixer_up a = true ->
  chosen_audio e <> "" -> music_load_ok e = true ->
  path_exists e (lrc_path_of (is_sep e) (chosen_audio e)) = false ->
  wants_lyrics e = false \/ chosen_lrc e = "" ->
  exists a',
    load a e = (a', None) /\
    lrc (player a') = lrc (player a) /\
    audio_path (player a') = Some (chosen_audio e) /\
    playing (player a') = false /\ paused (player a') = false /\
    pause_offset (player a') = 0 /\
    lyric_var (player a') = lyric_var (player a).
Proof.
  intros I U F M X W. unfold load, ensure_pygame. rewrite I.
  cbn [negb]. apply truthy_iff in F. rewrite F. cbn [negb mixer_up].
  rewrite U, M. cbn [andb negb]. rewrite X.
  assert (D : (wants_lyrics e && truthy (chosen_lrc e))%bool = false).
  { destruct W as [-> | ->]; [reflexivity|apply andb_false_r]. }
  rewrite D. eexists. split; [reflexivity|]. now repeat split.
Qed.

Lemma load_without_lyrics_keeps_timeline_witness :
  exists a',
    load (mk_app (session timeline8 "D") true)
         (mk_load_env true true "next.mp3" true posix_sep
            (fun _ => false) false "" (fun _ => None))
    = (a', None) /\
    lrc (player a') = timeline8.
Proof.
  destruct (load_without_lyrics_keeps_timeline
              (mk_app (session timeline8 "D") true)
              (mk_load_env true true "next.mp3" true posix_sep
                 (fun _ => false) false "" (fun _ => None)))
    as (a' & H & L & _); try reflexivity; try discriminate.
  - now left.
  - exists a'. split; [exact H|exact L].
Defined.

(** X15: [load] stores the chosen path before the mixer has accepted the
    file.  When the mixer rejects it, [load] returns with the path kept,
    and with the timeline and the two flags as they were.  If nothing was
    playing, the next press of Play calls [music.play]: when the mixer
    accepts the call, playback starts with the timeline of the file
    loaded before; when the call raises, the object stays as [load] left
    it. *)
Theorem failed_load_keeps_path (a : App) (e : LoadEnv) (w : World) :
  pygame_initialized (player a) = true -> mixer_up a = true ->
  chosen_audio e <> "" -> music_load_ok e = false ->
  exists a',
    load a e = (a', None) /\
    audio_path (player a') = Some (chosen_audio e) /\
    lrc (player a') = lrc (player a) /\
    playing (player a') = playing (player a) /\
    paused (player a') = paused (player a) /\
    (playing (player a) = false ->
     (music_play w = Ok tt ->
      exists s, play_pause (player a') w = Ok s /\
        playing s = true /\ paused s = false /\
        audio_path s = Some (chosen_audio e) /\
        lrc s = lrc (player a)) /\
     (forall x, music_play w = Raise x ->
      play_pause (player a') w = Ok (player a'))).
Proof.
  intros I U F M. unfold load, ensure_pygame. rewrite I.
  cbn [negb]. apply truthy_iff in F. rewrite F. cbn [negb mixer_up].
  rewrite U, M. cbn [andb negb]. eexists.
  split; [reflexivity|]. split; [reflexivity|]. split; [reflexivity|].
  split; [reflexivity|]. split; [reflexivity|].
  intros P. unfold play_pause.
  cbn [player audio_path set_audio_path playing]. rewrite P.
  cbn [negb]. split.
  - intros ->. eexists. split; [reflexivity|]. now repeat split.
  - intros x ->. reflexivity.
Qed.

Lemma failed_load_keeps_path_witness :
  exists a',
    load (mk_app (set_lyric "x" (reset_transport (session timeline8 "")))
                 true)
         (mk_load_env true true "broken.mp3" false posix_sep
            (fun _ => false) false "" (fun _ => None))
    = (a', None) /\
    audio_path (player a') = Some "broken.mp3" /\
    (exists s, play_pause (player a') (report 0) = Ok s /\
               playing s = true) /\
    play_pause (player a') (mk_world 0 true 0 false) = Ok (player a').
Proof.
  destruct (failed_load_keeps_path
              (mk_app (set_lyric "x" (reset_transport (session timeline8 "")))
                      true)
              (mk_load_env true true "broken.mp3" false posix_sep
                 (fun _ => false) false "" (fun _ => None))
              (report 0))
    as (a' & H1 & H2 & _ & _ & _ & H3);
    try reflexivity; try discriminate.
  exists a'. split; [exact H1|]. split; [exact H2|].
  destruct (H3 eq_refl) as [K _].
  destruct (K eq_refl) as (s & Hs & Ps & _). split; [now exists s|].
  destruct (failed_load_keeps_path
              (mk_app (set_lyric "x" (reset_transport (session timeline8 "")))
                      true)
              (mk_load_env true true "broken.mp3" false posix_sep
                 (fun _ => false) false "" (fun _ => None))
              (mk_world 0 true 0 false))
    as (a2 & G1 & _ & _ & _ & _ & G3);
    try reflexivity; try discriminate.
  assert (E : a2 = a') by congruence. subst a2.
  destruct (G3 eq_refl) as [_ K2]. exact (K2 PygameError eq_refl).
Defined.

End SessionProps.

(** * Paths: where [load] looks for the lyrics *)

Module PathFacts.
Import Text Path.

Local Open Scope Z_scope.

Lemma rfind_from_none (P : ascii -> bool) (s : chars) (i last : Z) :
  Forall (fun c => P c = false) s -> rfind_from P s i last = last.
Proof.
  intros F. revert i last. induction F as [|c s H _ IH]; intros i last;
    [reflexivity|].
  cbn [rfind_from]. now rewrite H, IH.
Qed.

Lemma rfind_from_last (P : ascii -> bool) (a b : chars) (c : ascii)
  (i last : Z) :
  P c = true -> Forall (fun d => P d = false) b ->
  rfind_from P (a ++ c :: b) i last = i + Z.of_nat (List.length a).
Proof.
  intros H F. revert i last. induction a as [|d a IH]; intros i last.
  - cbn [app rfind_from List.length]. rewrite H, (rfind_from_none _ _ _ _ F).
    lia.
  - cbn [app rfind_from List.length]. rewrite IH. lia.
Qed.

(** A text has no character of the class, or a last one. *)
Lemma last_occurrence (P : ascii -> bool) (s : chars) :
  Forall (fun c => P c = false) s \/
  exists a c b, s = a ++ c :: b /\ P c = true /\
                Forall (fun d => P d = false) b.
Proof.
  induction s as [|d s IH]; [left; constructor|].
  destruct IH as [F|(a & c & b & -> & H & F)].
  - destruct (P d) eqn:E.
    + right. now exists [], d, s.
    + left. now constructor.
  - right. now exists (d :: a), c, b.
Qed.

Lemma rfind_none (P : ascii -> bool) (s : chars) :
  Forall (fun c => P c = false) s -> rfind P s = -1.
Proof. apply rfind_from_none. Qed.

Lemma rfind_last (P : ascii -> bool) (a b : chars) (c : ascii) :
  P c = true -> Forall (fun d => P d = false) b ->
  rfind P (a ++ c :: b) = Z.of_nat (List.length a).
Proof.
  intros H F. unfold rfind. now rewrite (rfind_from_last _ _ _ _ _ _ H F).
Qed.

(** Of two ways to cut a text around one character, the later cut has
    the shorter rest. *)
Lemma later_cut (a a' b b' : chars) (x y : ascii) :
  a ++ x :: b = a' ++ y :: b' ->
  (List.length a' < List.length a)%nat ->
  exists m, b' = m ++ x :: b.
Proof.
  revert a'. induction a as [|d a IH]; intros a' E L; [simpl in L; lia|].
  destruct a' as [|d' a'].
  - simpl in E. injection E as _ E. now exists a.
  - simpl in E, L. injection E as _ E. apply (IH a' E). lia.
Qed.

Lemma slice_middle (a b c : chars) :
  slice (a ++ b ++ c) (Z.of_nat (List.length a))
        (Z.of_nat (List.length a) + Z.of_nat (List.length b)) = b.
Proof.
  unfold slice. rewrite Nat2Z.id.
  replace (Z.of_nat (List.length a) + Z.of_nat (List.length b)
           - Z.of_nat (List.length a)) with (Z.of_nat (List.length b))
    by lia.
  rewrite Nat2Z.id, skipn_app, skipn_all, Nat.sub_diag. cbn [app skipn].
  rewrite firstn_app, firstn_all, Nat.sub_diag. cbn [firstn].
  apply app_nil_r.
Qed.

(** Splitting loses nothing, and the extension is empty or a dot
    followed by characters that are neither dots nor separators. *)
Theorem splitext_parts (is_sep : ascii -> bool) (p : chars) :
  fst (splitext is_sep p) ++ snd (splitext is_sep p) = p /\
  (snd (splitext is_sep p) = [] \/
   exists x, snd (splitext is_sep p) = "."%char :: x /\
             Forall (fun c => is_dot c = false) x /\
             Forall (fun c => is_sep c = false) x).
Proof.
  unfold splitext.
  destruct ((rfind is_dot p >? rfind is_sep p) &&
            existsb (fun c => negb (is_dot c))
              (slice p (rfind is_sep p + 1) (rfind is_dot p)))%bool eqn:E;
    cbn [fst snd]; [|split; [apply app_nil_r|now left]].
  split; [apply firstn_skipn|]. right.
  apply andb_prop in E. destruct E as [G _]. apply Z.gtb_lt in G.
  destruct (last_occurrence is_dot p) as [F|(a & c & b & -> & H & F)].
  - rewrite (rfind_none _ _ F) in G.
    assert (-1 <= rfind is_sep p); [|lia].
    destruct (last_occurrence is_sep p) as [F'|(a & c & b & -> & H & F')].
    + rewrite (rfind_none _ _ F'). lia.
    + rewrite (rfind_last _ _ _ _ H F'). lia.
  - rewrite (rfind_last _ _ _ _ H F) in *.
    rewrite Nat2Z.id, skipn_app, skipn_all, Nat.sub_diag.
    cbn [app skipn].
    assert (c = "."%char) as -> by now apply Ascii.eqb_eq.
    exists b. split; [reflexivity|]. split; [exact F|].
    destruct (last_occurrence is_sep (a ++ "."%char :: b))
      as [F'|(a' & c' & b' & E' & H' & F')].
    + apply Forall_app in F'. destruct F' as [_ F'].
      now inversion F'.
    + rewrite E', (rfind_last _ _ _ _ H' F') in G.
      destruct (later_cut _ _ _ _ _ _ E' ltac:(lia)) as [m ->].
      apply Forall_app in F'. destruct F' as [_ F'].
      now inversion F'.
Qed.

(** X16: for a file in a directory (or in none), with a name that is
    not made of dots only and an extension, the lyric file [load] looks
    for is the file of the same name with the extension [.lrc] in the
    same directory. *)
Theorem lrc_path_replaces_extension
  (is_sep : ascii -> bool) (dir name ext : chars) :
  is_sep "."%char = false ->
  (dir = [] \/ exists d c, dir = d ++ [c] /\ is_sep c = true) ->
  Forall (fun c => is_sep c = false) name ->
  Exists (fun c => is_dot c = false) name ->
  Forall (fun c => is_sep c = false) ext ->
  Forall (fun c => is_dot c = false) ext ->
  lrc_path_of is_sep (string_of_list_ascii (dir ++ name ++ "."%char :: ext))
  = (string_of_list_ascii (dir ++ name) ++ ".lrc")%string.
Proof.
  intros SD D Fn En Fe Fd. unfold lrc_path_of.
  rewrite list_ascii_of_string_of_list_ascii. f_equal. f_equal.
  unfold splitext.
  assert (Rd : rfind is_dot (dir ++ name ++ "."%char :: ext)
               = Z.of_nat (List.length dir) + Z.of_nat (List.length name)).
  { rewrite app_assoc, (rfind_last is_dot _ _ "." eq_refl Fd).
    rewrite length_app. lia. }
  assert (Rs : rfind is_sep (dir ++ name ++ "."%char :: ext) + 1
               = Z.of_nat (List.length dir)).
  { assert (T : Forall (fun c => is_sep c = false)
                  (name ++ "."%char :: ext)).
    { apply Forall_app. split; [exact Fn|]. now constructor. }
    destruct D as [->|(d & c & -> & H)].
    - cbn [app]. now rewrite (rfind_none _ _ T).
    - rewrite <- app_assoc. cbn [app].
      rewrite (rfind_last _ _ _ _ H T), length_app. cbn. lia. }
  assert (G : (rfind is_dot (dir ++ name ++ "."%char :: ext)
               >? rfind is_sep (dir ++ name ++ "."%char :: ext)) = true).
  { apply Z.gtb_lt. lia. }
  rewrite G, Rs, Rd.
  change ("."%char :: ext) with (["."%char] ++ ext) at 1.
  rewrite (app_assoc name), <- (app_nil_r ((name ++ ["."%char]) ++ ext)).
  rewrite <- !app_assoc. rewrite (slice_middle dir name).
  assert (X : existsb (fun c => negb (is_dot c)) name = true).
  { apply existsb_exists. apply Exists_exists in En.
    destruct En as (c & I & N). exists c. split; [exact I|].
    now rewrite N. }
  rewrite X. cbn [andb fst].
  rewrite <- Nat2Z.inj_add, Nat2Z.id, <- length_app.
  rewrite (app_assoc dir name). now rewrite firstn_app, firstn_all,
    Nat.sub_diag, firstn_O, app_nil_r.
Qed.

Lemma lrc_path_replaces_extension_witness :
  lrc_path_of nt_sep "C:/Music/My.Songs/track 01.mp3"
  = "C:/Music/My.Songs/track 01.lrc"%string.
Proof.
  apply (lrc_path_replaces_extension nt_sep
           (list_ascii_of_string "C:/Music/My.Songs/")
           (list_ascii_of_string "track 01")
           (list_ascii_of_string "mp3")).
  - reflexivity.
  - right. exists (list_ascii_of_string "C:/Music/My.Songs"), "/"%char.
    split; reflexivity.
  - repeat constructor.
  - left. reflexivity.
  - repeat constructor.
  - repeat constructor.
Defined.

Lemma split_behind (u v a w : chars) :
  u ++ v = a ++ w -> (List.length u <= List.length a)%nat ->
  exists a2, a = u ++ a2 /\ v = a2 ++ w.
Proof.
  revert a. induction u as [|d u IH]; intros a E L.
  - now exists a.
  - destruct a as [|d' a]; [simpl in L; lia|].
    simpl in E, L. injection E as <- E.
    destruct (IH a E ltac:(lia)) as (a2 & -> & ->). now exists a2.
Qed.

Lemma dots_prefix (a2 b dots rest : chars) :
  a2 ++ "."%char :: b = dots ++ rest ->
  Forall (fun c => is_dot c = true) dots ->
  Forall (fun c => is_dot c = false) rest ->
  Forall (fun c => is_dot c = true) a2.
Proof.
  revert dots. induction a2 as [|d a2 IH]; intros dots E Fd Fr;
    [constructor|].
  destruct dots as [|d' dots].
  - exfalso. simpl in E. subst rest. inversion Fr as [|? ? _ Fr']; subst.
    apply Forall_app in Fr'. destruct Fr' as [_ Fr'].
    inversion Fr'; subst. discriminate.
  - simpl in E. injection E as -> E. inversion Fd; subst.
    constructor; [assumption|]. now apply (IH dots).
Qed.

(** X17: a file name without a dot, or whose only dots stand at its
    beginning, has no extension: [load] then looks for the whole path
    followed by [.lrc]. *)
Theorem lrc_path_without_extension
  (is_sep : ascii -> bool) (dir dots rest : chars) :
  is_sep "."%char = false ->
  (dir = [] \/ exists d c, dir = d ++ [c] /\ is_sep c = true) ->
  Forall (fun c => is_dot c = true) dots ->
  Forall (fun c => is_sep c = false) rest ->
  Forall (fun c => is_dot c = false) rest ->
  lrc_path_of is_sep (string_of_list_ascii (dir ++ dots ++ rest))
  = (string_of_list_ascii (dir ++ dots ++ rest) ++ ".lrc")%string.
Proof.
  intros SD D Fd Fs Fr. unfold lrc_path_of.
  rewrite list_ascii_of_string_of_list_ascii. f_equal. f_equal.
  unfold splitext.
  set (p := dir ++ dots ++ rest).
  assert (Rs : rfind is_sep p + 1 = Z.of_nat (List.length dir)).
  { assert (T : Forall (fun c => is_sep c = false) (dots ++ rest)).
    { apply Forall_app. split; [|exact Fs].
      revert Fd. apply Forall_impl. intros c H.
      apply Ascii.eqb_eq in H. now subst c. }
    unfold p. destruct D as [->|(d & c & -> & H)].
    - cbn [app]. now rewrite (rfind_none _ _ T).
    - rewrite <- app_assoc. cbn [app].
      rewrite (rfind_last _ _ _ _ H T), length_app. cbn. lia. }
  destruct ((rfind is_dot p >? rfind is_sep p) &&
            existsb (fun c => negb (is_dot c))
              (slice p (rfind is_sep p + 1) (rfind is_dot p)))%bool eqn:E;
    [|reflexivity].
  exfalso. apply andb_prop in E. destruct E as [G X].
  apply Z.gtb_lt in G. rewrite Rs in X.
  destruct (last_occurrence is_dot p) as [F|(a & c & b & Ep & H & F)].
  - rewrite (rfind_none _ _ F) in G.
    pose proof (Zle_0_nat (List.length dir)). lia.
  - assert (Rd : rfind is_dot p = Z.of_nat (List.length a))
      by (rewrite Ep; now apply rfind_last).
    rewrite Rd in G, X.
    assert (c = "."%char) as -> by now apply Ascii.eqb_eq.
    unfold p in Ep, X.
    destruct (split_behind dir (dots ++ rest) a ("."%char :: b) Ep
                ltac:(lia)) as (a2 & -> & E2).
    pose proof (dots_prefix a2 b dots rest (eq_sym E2) Fd Fr) as F2.
    rewrite Ep, length_app, Nat2Z.inj_add in X.
    rewrite <- app_assoc in X.
    rewrite (slice_middle dir a2 ("."%char :: b)) in X.
    apply existsb_exists in X. destruct X as (c & I & N).
    rewrite Forall_forall in F2. rewrite (F2 c I) in N. discriminate.
Qed.

Lemma lrc_path_without_extension_witness :
  lrc_path_of posix_sep "/home/me/.hidden" = "/home/me/.hidden.lrc"%string.
Proof.
  apply (lrc_path_without_extension posix_sep
           (list_ascii_of_string "/home/me/")
           (list_ascii_of_string ".")
           (list_ascii_of_string "hidden")).
  - reflexivity.
  - right. exists (list_ascii_of_string "/home/me"), "/"%char.
    split; reflexivity.
  - repeat constructor.
  - repeat constructor.
  - repeat constructor.
Defined.

End PathFacts.

(** * The command-line player *)

Module YouTubeFacts.
Import Text Player YouTube TimelineFacts.

Local Open Scope Z_scope.

Local Abbreviation chars_of := list_ascii_of_string.
Local Abbreviation print := DecimalString.NilEmpty.string_of_uint.














(** ** The lyric loop *)

Lemma skipn_nth_error {A : Type} (l : list A) (n : nat) (x : A) :
  nth_error l n = Some x -> skipn n l = x :: skipn (S n) l.
Proof.
  revert n. induction l as [|y l IH]; intros [|n]; cbn;
    try discriminate.
  - intros H. now injection H as <-.
  - intros H. now apply IH.
Qed.

(** X19: the loop prints the stored entries strictly in their stored
    order, each once and none skipped: when it has advanced from index
    [idx] to index [i], what it has printed is the entries from [idx] up
    to [i], one line each. *)
Theorem lyric_loop_prints_in_order
  (entries : list (Z * string)) (idx : nat) (polls : list Poll) :
  let i := fst (lyric_loop entries idx polls) in
  (idx <= i)%nat /\ (i <= Nat.max idx (List.length entries))%nat /\
  snd (lyric_loop entries idx polls)
  = map print_line (firstn (i - idx) (skipn idx entries)).
Proof.
  cbv zeta. revert idx.
  induction polls as [|p polls IH]; intros idx; cbn [lyric_loop].
  - cbn. rewrite Nat.sub_diag. repeat split; lia.
  - destruct (stop_flag p || negb (idx <? List.length entries)%nat)%bool
      eqn:G.
    + cbn. rewrite Nat.sub_diag. repeat split; lia.
    + apply orb_false_elim in G. destruct G as [_ G].
      apply negb_false_iff, Nat.ltb_lt in G.
      destruct (get_time p <? 0); [apply IH|].
      destruct (nth_error entries idx) as [[start_ms text]|] eqn:N.
      * destruct (get_time p + 250 >=? start_ms); [|apply IH].
        specialize (IH (S idx)).
        destruct (lyric_loop entries (S idx) polls) as [i out].
        cbn [fst snd] in *. destruct IH as (L1 & L2 & ->).
        split; [lia|]. split; [lia|].
        rewrite (skipn_nth_error _ _ _ N).
        replace (i - idx)%nat with (S (i - S idx)) by lia.
        reflexivity.
      * cbn. rewrite Nat.sub_diag. repeat split; lia.
Qed.

(** X20: while the entry at the current index is not yet due (the
    player's time plus the lead of 250 ms is before its start) nothing is
    printed, whatever the start times of the entries behind it: the
    entries are not sorted, and an entry with a late start holds back
    all that follow. *)
Theorem lyric_loop_waits_for_current
  (entries : list (Z * string)) (idx : nat) (polls : list Poll)
  (start_ms : Z) (text : string) :
  nth_error entries idx = Some (start_ms, text) ->
  Forall (fun p => get_time p + 250 < start_ms) polls ->
  lyric_loop entries idx polls = (idx, []).
Proof.
  intros N F. induction F as [|p polls H _ IH]; [reflexivity|].
  cbn [lyric_loop].
  destruct (stop_flag p || negb (idx <? List.length entries)%nat)%bool;
    [reflexivity|].
  destruct (get_time p <? 0); [exact IH|]. rewrite N.
  destruct (Z.geb_spec (get_time p + 250) start_ms); [lia|exact IH].
Qed.

Lemma lyric_loop_waits_for_current_witness :
  lyric_loop [(0, "one"); (90000, "late"); (1000, "two")]%string 1
             (map (mk_poll false) [500; 1000; 5000; 60000])
  = (1%nat, []).
Proof.
  apply (lyric_loop_waits_for_current _ 1 _ 90000 "late"%string);
    [reflexivity|].
  repeat constructor.
Defined.

(** X21: when every stored entry is already due at every poll, the loop
    prints one line per poll and no more: a backlog of [k] lines takes
    [k] polls. *)
Theorem lyric_loop_one_line_per_poll
  (entries : list (Z * string)) (idx : nat) (polls : list Poll) :
  (idx <= List.length entries)%nat ->
  Forall (fun p => stop_flag p = false /\ 0 <= get_time p /\
                   Forall (fun e => fst e <= get_time p + 250) entries)
         polls ->
  fst (lyric_loop entries idx polls)
  = Nat.min (idx + List.length polls) (List.length entries).
Proof.
  intros L F. revert idx L.
  induction F as [|p polls (Hs & Ht & D) _ IH]; intros idx L.
  - cbn. lia.
  - cbn [lyric_loop List.length]. rewrite Hs. cbn [orb].
    destruct (Nat.ltb_spec idx (List.length entries)) as [G|G];
      cbn [negb]; [|cbn; lia].
    destruct (Z.ltb_spec (get_time p) 0); [lia|].
    destruct (nth_error entries idx) as [[start_ms text]|] eqn:N.
    + assert (I : In (start_ms, text) entries)
        by now apply (nth_error_In _ idx).
      rewrite Forall_forall in D. specialize (D _ I). cbn in D.
      destruct (Z.geb_spec (get_time p + 250) start_ms); [|lia].
      specialize (IH (S idx) ltac:(lia)).
      destruct (lyric_loop entries (S idx) polls) as [i out].
      cbn [fst] in *. lia.
    + apply nth_error_None in N. lia.
Qed.

Lemma lyric_loop_one_line_per_poll_witness :
  fst (lyric_loop [(0, "a"); (100, "b"); (200, "c")]%string 0
                  (map (mk_poll false) [5000; 5000]))
  = 2%nat.
Proof.
  apply (lyric_loop_one_line_per_poll
           [(0, "a"); (100, "b"); (200, "c")]%string 0
           (map (mk_poll false) [5000; 5000])).
  - cbn. lia.
  - repeat constructor; cbn; lia.
Defined.

(** ** The choice of the audio stream *)

Local Open Scope Q_scope.



End YouTubeFacts.
